(** * The n-tuple TD agent of agent.h (2584 framework)

    A shallow embedding of [weight_agent] from [src/agent.h]: the value
    estimate [v_value], the weight update [adjust_table], the episode hooks
    [open_episode] / [close_episode], the greedy one-step policy
    [take_action], and the weight-store plumbing [init_weights],
    [load_weights], [save_weights]; then the rest of the file: the property
    map of the base [agent], the constructor and destructor of
    [weight_agent], the random environment [rndenv] and the heuristic
    [player].

    C++ [float] is IEEE-754 binary32 with round-to-nearest-even, taken from
    the Standard Library's executable specification [SpecFloat] at precision
    24 and maximal exponent 128.  Reading or writing a [std::vector] outside
    its bounds, and using a variable that was never written, is undefined
    behaviour in C++; the embedding makes it the explicit outcome
    [Undefined], [std::exit(-1)] is the outcome [Exited], and an exception
    that leaves the call is the outcome [Thrown]. *)

From Stdlib Require Import ZArith Lia Bool.
From Stdlib Require Import Floats.SpecFloat.
From Stdlib Require Strings.Byte.
From Stdlib Require Import Strings.Ascii.
From stdpp Require Import base option list strings gmap.

Local Open Scope Z_scope.

(** ** binary32 arithmetic *)

Module F32.

Definition prec : Z := 24.
Definition emax : Z := 128.

Definition float : Type := spec_float.

Definition zero : float := S754_zero false.

(** Conversion of a C++ [int] to [float] (round to nearest even). *)
Definition of_int (z : Z) : float := binary_normalize prec emax z 0 false.

Definition add : float -> float -> float := SFadd prec emax.
Definition sub : float -> float -> float := SFsub prec emax.
Definition mul : float -> float -> float := SFmul prec emax.

(** [x == y] and [x > y] on floats; both are false when a NaN is involved. *)
Definition eqb : float -> float -> bool := SFeqb.
Definition gtb (x y : float) : bool := SFltb y x.

(** [std::numeric_limits<float>::max()]. *)
Definition max_float : float := SFmax_float prec emax.

Definition opp : float -> float := SFopp.

Definition is_nan (x : float) : bool :=
  match x with S754_nan => true | _ => false end.

End F32.

Abbreviation float := F32.float.

(** ** Outcomes of a call *)

Inductive outcome (A : Type) : Type :=
| Done (a : A)
| Undefined
| Exited
| Thrown.

Arguments Done {A} a.
Arguments Undefined {A}.
Arguments Exited {A}.
Arguments Thrown {A}.

Definition is_done {A : Type} (c : outcome A) : bool :=
  match c with Done _ => true | _ => false end.

Definition obind {A B : Type} (c : outcome A) (k : A -> outcome B) : outcome B :=
  match c with
  | Done a => k a
  | Undefined => Undefined
  | Exited => Exited
  | Thrown => Thrown
  end.

Notation "'let!' x ':=' c 'in' k" := (obind c (fun x => k))
  (at level 10, x name, c at level 100, k at level 200).

(** ** Weight tables *)

(** Modelled from the spec: [weight.h] is not part of the sources; a weight
    table is "a dense array of floating-point weights indexed by the tuple's
    feature index", and a table built from a length holds that many zeros
    ("freshly zero-initialized"). *)
Definition weight : Type := list float.

Definition weight_of_size (len : Z) : weight := replicate (Z.to_nat len) F32.zero.

(** [v[i]] on a [std::vector]. *)
Definition vec_at {A : Type} (v : list A) (i : Z) : outcome A :=
  if 0 <=? i then
    match v !! Z.to_nat i with
    | Some x => Done x
    | None => Undefined
    end
  else Undefined.

(** [net[k][i]], read. *)
Definition net_at (net : list weight) (k i : Z) : outcome float :=
  let! w := vec_at net k in vec_at w i.

(** [net[k][i] += d]. *)
Definition net_add (net : list weight) (k i : Z) (d : float) : outcome (list weight) :=
  let! w := vec_at net k in
  let! x := vec_at w i in
  Done (<[Z.to_nat k := <[Z.to_nat i := F32.add x d]> w]> net).

(** [net.emplace_back(len)]. *)
Definition emplace_back (net : list weight) (len : Z) : list weight :=
  net ++ [weight_of_size len].

(** [net.resize(size)]: truncate, or pad with default-constructed (empty)
    tables. *)
Definition resize (net : list weight) (size : Z) : list weight :=
  take (Z.to_nat size) net ++ replicate (Z.to_nat size - length net)%nat ([] : weight).

(** ** Raw 32-bit counts in a byte stream *)

Definition byte_of_Z (z : Z) : Byte.byte :=
  default Byte.x00 (Byte.of_N (Z.to_N (z mod 256))).

Definition Z_of_byte (b : Byte.byte) : Z := Z.of_N (Byte.to_N b).

(** [out.write(reinterpret_cast<char*>(&size), sizeof(size))] for a
    [uint32_t], least significant byte first. *)
Definition write_u32 (n : Z) : list Byte.byte :=
  [byte_of_Z n; byte_of_Z (n / 2 ^ 8); byte_of_Z (n / 2 ^ 16); byte_of_Z (n / 2 ^ 24)].

(** [in.read(reinterpret_cast<char*>(&size), sizeof(size))]: with fewer than
    four bytes left, [size] is never completely written. *)
Definition read_u32 (s : list Byte.byte) : option (Z * list Byte.byte) :=
  match s with
  | b0 :: b1 :: b2 :: b3 :: rest =>
      Some (Z_of_byte b0 + Z_of_byte b1 * 2 ^ 8 + Z_of_byte b2 * 2 ^ 16 + Z_of_byte b3 * 2 ^ 24, rest)
  | _ => None
  end.

(** ** Actions *)

(** Modelled from the spec: [action.h] is not part of the sources; the agent
    only builds the three opaque values [action()], [action::slide(op)] and
    [action::place(pos, tile)]. *)
Inductive action : Type :=
| action_none
| action_slide (op : Z)
| action_place (pos tile : Z).

(** ** The library's number parsing, for examples *)

(** A stand-in for [std::stod] and for the conversion of its [double] to
    [float], used only to evaluate the constructor on concrete property
    values.  A [double] is a binary64 value; the spellings [0], [0.5], [1]
    and [1e39] are read and every other string is refused; the conversion
    rounds to nearest even and has no result beyond [FLT_MAX]. *)
Module Literal.

Definition double : Type := spec_float.

Definition of_Z (m e : Z) : double := binary_normalize 53 1024 m e false.

Definition stod (s : string) : option double :=
  if String.eqb s "0" then Some (of_Z 0 0)
  else if String.eqb s "0.5" then Some (of_Z 1 (-1))
  else if String.eqb s "1" then Some (of_Z 1 0)
  else if String.eqb s "1e39" then Some (of_Z (10 ^ 39) 0)
  else None.

Definition narrow (d : double) : option float :=
  match d with
  | S754_finite s m e =>
      match binary_normalize F32.prec F32.emax (if s then Z.neg m else Z.pos m) e s with
      | S754_infinity _ => None
      | f => Some f
      end
  | _ => Some d
  end.

End Literal.

(** ** The agent, over an abstract board *)

Section Agent.

(** [board.h] is not part of the sources.  The agent uses a board through
    its default constructor, [operator()] (the rank of cell [i]) and
    [slide], which changes the board in place and returns the reward, or
    [-1] when the move is illegal.  Ranks and rewards are integers; the
    index arithmetic on ranks is exact here, as it is in any C++ integer
    type of 32 bits or more for ranks up to 24. *)
Context {board : Type}.
Variable new_board : board.
Variable cell : board -> Z -> Z.
Variable slide : board -> Z -> board * Z.

(** [weight.h] is not part of the sources either: [out << w] and [in >> w]
    on a weight table.  [get_weight w s] reads from the stream [s] into the
    existing table [w] and returns the table and the rest of the stream. *)
Variable put_weight : weight -> list Byte.byte.
Variable get_weight : weight -> list Byte.byte -> weight * list Byte.byte.

(** [std::stod] is the library's: it returns the [double] that a prefix of
    the string spells, or throws [std::invalid_argument] (no number there)
    or [std::out_of_range] ([None]).  [narrow] is the conversion of a
    [double] to [float]; a value outside the range of [float] has none
    ([None]), and converting it is undefined. *)
Context {double : Type}.
Variable stod : string -> option double.
Variable narrow : double -> option float.

(** [agent::value::operator numeric()] at [float]:
    [numeric(std::stod(value))]. *)
Definition to_float (value : string) : outcome float :=
  match stod value with
  | None => Thrown
  | Some d =>
      match narrow d with
      | Some f => Done f
      | None => Undefined
      end
  end.

Record weight_agent : Type := Agent {
  net : list weight;
  alpha : float;
  reward_history : list Z;
  board_history : list board
}.

(** *** v_value *)

Definition v_value (net : list weight) (after : board) : outcome float :=
  let val := F32.zero in
  let! x := net_at net 0 (cell after 0 * 25 * 25 * 25 + cell after 1 * 25 * 25 + cell after 2 * 25 + cell after 3) in
  let val := F32.add val x in
  let! x := net_at net 1 (cell after 4 * 25 * 25 * 25 + cell after 5 * 25 * 25 + cell after 6 * 25 + cell after 7) in
  let val := F32.add val x in
  let! x := net_at net 2 (cell after 8 * 25 * 25 * 25 + cell after 9 * 25 * 25 + cell after 10 * 25 + cell after 11) in
  let val := F32.add val x in
  let! x := net_at net 3 (cell after 12 * 25 * 25 * 25 + cell after 13 * 25 * 25 + cell after 14 * 25 + cell after 15) in
  let val := F32.add val x in
  let! x := net_at net 4 (cell after 0 * 25 * 25 * 25 + cell after 4 * 25 * 25 + cell after 8 * 25 + cell after 12) in
  let val := F32.add val x in
  let! x := net_at net 5 (cell after 1 * 25 * 25 * 25 + cell after 5 * 25 * 25 + cell after 9 * 25 + cell after 13) in
  let val := F32.add val x in
  let! x := net_at net 6 (cell after 2 * 25 * 25 * 25 + cell after 6 * 25 * 25 + cell after 10 * 25 + cell after 14) in
  let val := F32.add val x in
  let! x := net_at net 7 (cell after 3 * 25 * 25 * 25 + cell after 7 * 25 * 25 + cell after 11 * 25 + cell after 15) in
  let val := F32.add val x in
  Done val.

(** *** adjust_table *)

Definition adjust_table (alpha : float) (net : list weight) (after : board) (target : float)
  : outcome (list weight) :=
  let! current := v_value net after in
  let error := F32.sub target current in
  let adjust := F32.mul alpha error in
  let! net := net_add net 0 (cell after 0 * 25 * 25 * 25 + cell after 1 * 25 * 25 + cell after 2 * 25 + cell after 3) adjust in
  let! net := net_add net 1 (cell after 4 * 25 * 25 * 25 + cell after 5 * 25 * 25 + cell after 6 * 25 + cell after 7) adjust in
  let! net := net_add net 2 (cell after 8 * 25 * 25 * 25 + cell after 9 * 25 * 25 + cell after 10 * 25 + cell after 11) adjust in
  let! net := net_add net 3 (cell after 12 * 25 * 25 * 25 + cell after 13 * 25 * 25 + cell after 14 * 25 + cell after 15) adjust in
  let! net := net_add net 4 (cell after 0 * 25 * 25 * 25 + cell after 4 * 25 * 25 + cell after 8 * 25 + cell after 12) adjust in
  let! net := net_add net 5 (cell after 1 * 25 * 25 * 25 + cell after 5 * 25 * 25 + cell after 9 * 25 + cell after 13) adjust in
  let! net := net_add net 6 (cell after 2 * 25 * 25 * 25 + cell after 6 * 25 * 25 + cell after 10 * 25 + cell after 14) adjust in
  let! net := net_add net 7 (cell after 3 * 25 * 25 * 25 + cell after 7 * 25 * 25 + cell after 11 * 25 + cell after 15) adjust in
  Done net.

(** *** open_episode, close_episode *)

Definition open_episode (a : weight_agent) : weight_agent :=
  {| net := net a; alpha := alpha a; reward_history := []; board_history := [] |}.

(** The loop [for (int t = size - 2; t >= 0; t--)], counted by [k = t + 1]:
    [td_sweep k] runs the iterations [t = k - 1, ..., 0]. *)
Fixpoint td_sweep (al : float) (rh : list Z) (bh : list board) (k : nat) (net : list weight)
  : outcome (list weight) :=
  match k with
  | O => Done net
  | S t =>
      let! bt := vec_at bh (Z.of_nat t) in
      let! r := vec_at rh (Z.of_nat t + 1) in
      let! bn := vec_at bh (Z.of_nat t + 1) in
      let! v := v_value net bn in
      let! net := adjust_table al net bt (F32.add (F32.of_int r) v) in
      td_sweep al rh bh t net
  end.

Definition close_episode (a : weight_agent) : outcome weight_agent :=
  if bool_decide (length (board_history a) = 0%nat) then Done a
  else if F32.eqb (alpha a) (F32.of_int 0) then Done a
  else
    let size := Z.of_nat (length (board_history a)) in
    let! last := vec_at (board_history a) (size - 1) in
    let! net1 := adjust_table (alpha a) (net a) last (F32.of_int 0) in
    let! net2 := td_sweep (alpha a) (reward_history a) (board_history a) (Z.to_nat (size - 1)) net1 in
    Done {| net := net2; alpha := alpha a;
            reward_history := reward_history a; board_history := board_history a |}.

(** *** take_action *)

(** The caller's board [before] (held by reference) and the locals of
    [take_action] that outlive one loop iteration. *)
Record frame : Type := Frame {
  before : board;
  best_move : Z;
  max_reward : Z;
  max_val : float;
  next_board : board
}.

(** The body of [for (int op = 0; op < 4; op++)]. *)
Definition try_op (net : list weight) (op : Z) (f : frame) : outcome frame :=
  let after := before f in
  let '(after, r) := slide after op in
  if r =? -1 then Done f
  else
    let! val := v_value net after in
    if F32.gtb (F32.add (F32.of_int r) val) (F32.add (F32.of_int (max_reward f)) (max_val f))
    then Done {| before := before f; best_move := op; max_reward := r;
                 max_val := val; next_board := after |}
    else Done f.

Fixpoint for_ops (net : list weight) (ops : list Z) (f : frame) : outcome frame :=
  match ops with
  | [] => Done f
  | op :: ops => let! f := try_op net op f in for_ops net ops f
  end.

(** The result is the returned action, the agent after the call, and the
    caller's board after the call. *)
Definition take_action (a : weight_agent) (b : board) : outcome (action * weight_agent * board) :=
  let f := {| before := b; best_move := -1; max_reward := -1;
              max_val := F32.opp F32.max_float; next_board := new_board |} in
  let! f := for_ops (net a) [0; 1; 2; 3] f in
  let a :=
    if negb (best_move f =? -1)
    then {| net := net a; alpha := alpha a;
            reward_history := reward_history a ++ [max_reward f];
            board_history := board_history a ++ [next_board f] |}
    else a in
  Done (action_slide (best_move f), a, before f).

(** *** init_weights, load_weights, save_weights *)

Definition init_weights (info : string) (net : list weight) : list weight :=
  let net := emplace_back net (25 * 25 * 25 * 25) in
  let net := emplace_back net (25 * 25 * 25 * 25) in
  let net := emplace_back net (25 * 25 * 25 * 25) in
  let net := emplace_back net (25 * 25 * 25 * 25) in
  let net := emplace_back net (25 * 25 * 25 * 25) in
  let net := emplace_back net (25 * 25 * 25 * 25) in
  let net := emplace_back net (25 * 25 * 25 * 25) in
  let net := emplace_back net (25 * 25 * 25 * 25) in
  net.

(** [for (weight& w : net) in >> w]. *)
Fixpoint read_tables (net : list weight) (s : list Byte.byte) : list weight * list Byte.byte :=
  match net with
  | [] => ([], s)
  | w :: ws =>
      let '(w, s) := get_weight w s in
      let '(ws, s) := read_tables ws s in
      (w :: ws, s)
  end.

(** [for (weight& w : net) out << w]. *)
Definition write_tables (net : list weight) : list Byte.byte :=
  concat (put_weight <$> net).

(** The file system is a finite map from paths to contents; a file that
    is not in the map cannot be opened for reading. *)
Definition load_weights (path : string) (fs : gmap string (list Byte.byte)) (net : list weight)
  : outcome (list weight) :=
  match fs !! path with
  | None => Exited
  | Some s =>
      match read_u32 s with
      | None => Undefined
      | Some (size, s) =>
          let net := resize net size in
          Done (fst (read_tables net s))
      end
  end.

(** [can_open] tells whether the output stream could be opened. *)
Definition save_weights (path : string) (can_open : bool) (fs : gmap string (list Byte.byte))
  (net : list weight) : outcome (gmap string (list Byte.byte)) :=
  if negb can_open then Exited
  else
    let size := Z.of_nat (length net) mod 2 ^ 32 in
    Done (<[path := write_u32 size ++ write_tables net]> fs).

(** *** Construction *)

(** [meta] is the property map that the base class fills from the
    argument string. *)
Definition new_weight_agent (meta : gmap string string) (fs : gmap string (list Byte.byte))
  : outcome weight_agent :=
  let alpha := F32.of_int 0 in
  let net := [] in
  let net := match meta !! "init" with
             | Some info => init_weights info net
             | None => net
             end in
  let! net := match meta !! "load" with
              | Some path => load_weights path fs net
              | None => Done net
              end in
  let! alpha := match meta !! "alpha" with
                | Some v => to_float v
                | None => Done alpha
                end in
  Done {| net := net; alpha := alpha; reward_history := []; board_history := [] |}.

End Agent.

(** ** The specification's reading of the evaluator and of the learner *)

Section Reading.

Context {board : Type}.
Variable cell : board -> Z -> Z.

(** The eight tuples: the four rows, then the four columns. *)
Definition row_tuple (i : Z) : list Z := [4 * i; 4 * i + 1; 4 * i + 2; 4 * i + 3].
Definition column_tuple (j : Z) : list Z := [j; j + 4; j + 8; j + 12].
Definition tuples : list (list Z) :=
  (row_tuple <$> [0; 1; 2; 3]) ++ (column_tuple <$> [0; 1; 2; 3]).

(** Base-25 positional encoding, most significant digit first. *)
Definition base25 (digits : list Z) : Z :=
  fold_left (fun acc d => acc * 25 + d) digits 0.

Definition feature (b : board) (t : list Z) : Z := base25 (cell b <$> t).

(** The sum of the tuples' table entries, taken in tuple order from [0]. *)
Fixpoint sum_lookups (net : list weight) (b : board) (k : Z) (ts : list (list Z)) (acc : float)
  : outcome float :=
  match ts with
  | [] => Done acc
  | t :: ts =>
      let! x := net_at net k (feature b t) in
      sum_lookups net b (k + 1) ts (F32.add acc x)
  end.

Definition evaluate (net : list weight) (b : board) : outcome float :=
  sum_lookups net b 0 tuples F32.zero.

(** "For every one of the 8 tuples, add [delta] to that tuple's weight
    entry addressed by [b]'s feature index for that tuple." *)
Fixpoint add_to_tuples (net : list weight) (b : board) (k : Z) (ts : list (list Z)) (d : float)
  : outcome (list weight) :=
  match ts with
  | [] => Done net
  | t :: ts =>
      let! net := net_add net k (feature b t) d in
      add_to_tuples net b (k + 1) ts d
  end.

(** "Adjust board [b] toward target [T]". *)
Definition adjust (al : float) (net : list weight) (b : board) (T : float)
  : outcome (list weight) :=
  let! v := evaluate net b in
  let error := F32.sub T v in
  let delta := F32.mul al error in
  add_to_tuples net b 0 tuples delta.

(** One step of the backward pass: "target = [r[t+1] + evaluate(s[t+1])]",
    read from the tables as they are now; "adjust [s[t]] toward that
    target". *)
Definition learn_step (al : float) (r : list Z) (s : list board) (net : list weight) (t : nat)
  : outcome (list weight) :=
  let! st := vec_at s (Z.of_nat t) in
  let! r1 := vec_at r (Z.of_nat t + 1) in
  let! s1 := vec_at s (Z.of_nat t + 1) in
  let! v := evaluate net s1 in
  adjust al net st (F32.add (F32.of_int r1) v).

Fixpoint learn_steps (al : float) (r : list Z) (s : list board) (ts : list nat) (net : list weight)
  : outcome (list weight) :=
  match ts with
  | [] => Done net
  | t :: ts => let! net := learn_step al r s net t in learn_steps al r s ts net
  end.

(** The learning pass on the trajectory [s[0..n-1]], [r[0..n-1]]: index
    [n-1] toward target [0], then [t = n-2, ..., 0]. *)
Definition learn (al : float) (r : list Z) (s : list board) (net : list weight)
  : outcome (list weight) :=
  let n := length s in
  let! last := vec_at s (Z.of_nat n - 1) in
  let! net := adjust al net last F32.zero in
  learn_steps al r s (reverse (seq 0 (n - 1))) net.

(** The invariants of the data model: each of the eight tables can be
    addressed by every feature index below [25^4], and every cell of a
    board holds a rank from 0 to 24. *)
Definition addressable (net : list weight) : Prop :=
  forall k i, 0 <= k < 8 -> 0 <= i < 25 ^ 4 -> exists x, net_at net k i = Done x.

Definition ranks_ok (b : board) : Prop :=
  forall i, 0 <= i < 16 -> 0 <= cell b i < 25.

(** The recorded trajectory pairs every afterstate with its reward. *)
Definition paired (a : @weight_agent board) : Prop :=
  length (reward_history a) = length (board_history a).

End Reading.

(** ** The specification's reading of the policy *)

Section PolicyReading.

Context {board : Type}.
Variable cell : board -> Z -> Z.
Variable slide : board -> Z -> board * Z.

(** A direction is legal on [b] when its simulated slide does not return
    the sentinel [-1]. *)
Definition legal (b : board) (op : Z) : Prop := (slide b op).2 <> -1.

(** [score = immediate_reward + evaluate(resulting_afterstate)]. *)
Definition score (net : list weight) (b : board) (op : Z) : outcome float :=
  let! val := v_value cell net (slide b op).1 in
  Done (F32.add (F32.of_int (slide b op).2) val).

(** The bound that the first candidate is compared with: the initial
    [max_reward + max_val], which is [-1 + -FLT_MAX = -FLT_MAX]. *)
Definition first_bound : float := F32.add (F32.of_int (-1)) (F32.opp F32.max_float).

(** The agent after it recorded the afterstate [s] and the reward [r]. *)
Definition recorded (a : @weight_agent board) (r : Z) (s : board) : @weight_agent board :=
  {| net := net a; alpha := alpha a;
     reward_history := reward_history a ++ [r];
     board_history := board_history a ++ [s] |}.

(** A direction that can win: it is legal, and its score is defined and
    compares greater than the first bound (so it is a number, and it is
    above [-FLT_MAX]). *)
Definition above_bound (net : list weight) (b : board) (op : Z) : Prop :=
  legal b op /\ exists s, score net b op = Done s /\ F32.gtb s first_bound = true.

(** The score [s] of a direction, seen from the candidate with the score
    [best]: [s] is not greater, and for a direction [earlier] than the
    candidate it is not equal either, and is smaller when it is a number. *)
Definition beaten (earlier : Prop) (s best : float) : Prop :=
  F32.gtb s best = false /\
  (earlier -> F32.eqb s best = false /\ (F32.is_nan s = false -> F32.gtb best s = true)).

(** The two states of the loop of [take_action] after the directions
    [seen]: no candidate yet, or the best candidate so far. *)
Definition none_yet (net : list weight) (b : board) (seen : list Z) (f : @frame board)
  : Prop :=
  best_move f = -1 /\ max_reward f = -1 /\ max_val f = F32.opp F32.max_float /\
  forall op s, op ∈ seen -> legal b op -> score net b op = Done s ->
    F32.gtb s first_bound = false.

Definition best_so_far (net : list weight) (b : board) (seen : list Z) (f : @frame board)
  : Prop :=
  best_move f ∈ seen /\ legal b (best_move f) /\
  max_reward f = (slide b (best_move f)).2 /\
  next_board f = (slide b (best_move f)).1 /\
  v_value cell net (slide b (best_move f)).1 = Done (max_val f) /\
  F32.gtb (F32.add (F32.of_int (max_reward f)) (max_val f)) first_bound = true /\
  forall op s, op ∈ seen -> legal b op -> score net b op = Done s ->
    beaten (op < best_move f) s (F32.add (F32.of_int (max_reward f)) (max_val f)).

(** What a caller sees of a call of [take_action] besides the tables: the
    action and the two history vectors. *)
Definition observed (c : outcome (action * @weight_agent board * board))
  : outcome (action * list Z * list board) :=
  let! r := c in Done (r.1.1, reward_history r.1.2, board_history r.1.2).

End PolicyReading.

(** ** A concrete board, to run the definitions *)

(** Modelled from the spec: [board.h] is not part of the sources.  This board
    is "a fixed-size grid of 16 cells, each holding a small integer rank",
    and its [slide] follows the interface "mutate a board copy by sliding in
    one of 4 directions; returns the score gained, or a distinguished illegal
    sentinel if the board is unchanged", with the merge rule of 2048 (two
    equal ranks [x] merge into rank [x + 1], scoring [2 ^ (x + 1)]).  It is
    used only to evaluate the agent on concrete inputs. *)
Module Grid.

Definition board : Type := list Z.

Definition new_board : board := replicate 16 0.

Definition cell (b : board) (i : Z) : Z := default 0 (b !! Z.to_nat i).

Fixpoint merge (l : list Z) : list Z * Z :=
  match l with
  | x :: ((y :: l') as tl) =>
      if x =? y
      then let '(m, r) := merge l' in ((x + 1) :: m, 2 ^ (x + 1) + r)
      else let '(m, r) := merge tl in (x :: m, r)
  | _ => (l, 0)
  end.

Definition slide_line (l : list Z) : list Z * Z :=
  let '(m, r) := merge (filter (fun x => x <> 0) l) in
  (m ++ replicate (length l - length m) 0, r).

(** The four lines of a move, each from the edge the tiles slide to:
    0 up, 1 right, 2 down, 3 left. *)
Definition lines (op : Z) : list (list nat) :=
  match op with
  | 0 => [[0; 4; 8; 12]; [1; 5; 9; 13]; [2; 6; 10; 14]; [3; 7; 11; 15]]%nat
  | 1 => [[3; 2; 1; 0]; [7; 6; 5; 4]; [11; 10; 9; 8]; [15; 14; 13; 12]]%nat
  | 2 => [[12; 8; 4; 0]; [13; 9; 5; 1]; [14; 10; 6; 2]; [15; 11; 7; 3]]%nat
  | 3 => [[0; 1; 2; 3]; [4; 5; 6; 7]; [8; 9; 10; 11]; [12; 13; 14; 15]]%nat
  | _ => []
  end.

Definition slide_along (b : board) (acc : board * Z) (line : list nat) : board * Z :=
  let '(vals, r) := slide_line ((fun i => default 0 (b !! i)) <$> line) in
  (fold_left (fun b' iv => <[iv.1 := iv.2]> b') (zip line vals) acc.1, acc.2 + r).

Definition slide (b : board) (op : Z) : board * Z :=
  let '(b', r) := fold_left (slide_along b) (lines op) (b, 0) in
  if bool_decide (b' = b) then (b, -1) else (b', r).

(** Sample boards: two rank-1 tiles in the last column; the afterstate of
    sliding them up; a full board on which nothing moves. *)
Definition two_tiles : board := [0; 0; 0; 0;  0; 0; 0; 0;  0; 0; 0; 1;  0; 0; 0; 1].
Definition merged_up : board := [0; 0; 0; 2;  0; 0; 0; 0;  0; 0; 0; 0;  0; 0; 0; 0].
Definition merged_down : board := [0; 0; 0; 0;  0; 0; 0; 0;  0; 0; 0; 0;  0; 0; 0; 2].
Definition dead_board : board := [1; 2; 1; 2;  2; 1; 2; 1;  1; 2; 1; 2;  2; 1; 2; 1].

(** A full board on which no two neighbours hold equal or consecutive
    ranks: nothing moves, whether equal or consecutive ranks merge. *)
Definition checkered : board := [1; 3; 1; 3;  3; 1; 3; 1;  1; 3; 1; 3;  3; 1; 3; 1].

(** Sample tables, cut after the largest feature index that the sample
    boards and their afterstates address ([2 * 25^3 = 31250]). *)
Definition tables_of (x : float) : list weight :=
  replicate 8 (replicate (Z.to_nat 31251) x).

Definition half : float := SFdiv F32.prec F32.emax (F32.of_int 1) (F32.of_int 2).

Definition fresh_agent : @weight_agent board :=
  {| net := tables_of F32.zero; alpha := half; reward_history := []; board_history := [] |}.

(** An agent with learning rate 1 at the end of an episode, and the same
    episode closed [n] times over. *)
Definition eager_agent : @weight_agent board :=
  {| net := tables_of F32.zero; alpha := F32.of_int 1;
     reward_history := [4; 4]; board_history := [merged_up; merged_up] |}.

Fixpoint replay (n : nat) (a : @weight_agent board) : outcome (@weight_agent board) :=
  match n with
  | O => Done a
  | S n => let! a := close_episode cell a in replay n a
  end.

(** An agent whose tables hold NaN, as they do once an update overflowed. *)
Definition nan_agent : @weight_agent board :=
  {| net := tables_of S754_nan; alpha := half; reward_history := []; board_history := [] |}.

(** An agent whose tables hold zeros and one [-infinity], at the entry of
    the first row that [merged_up] addresses. *)
Definition inf_agent : @weight_agent board :=
  {| net := <[0%nat := <[2%nat := S754_infinity true]> (replicate (Z.to_nat 31251) F32.zero)]>
              (tables_of F32.zero);
     alpha := half; reward_history := []; board_history := [] |}.

(** An agent that never ran [init_weights]: its net is empty. *)
Definition bare_agent : @weight_agent board :=
  {| net := []; alpha := F32.zero; reward_history := []; board_history := [] |}.

(** An agent at the end of a two-move episode. *)
Definition played_agent : @weight_agent board :=
  {| net := tables_of (F32.of_int 1); alpha := half;
     reward_history := [4; 0]; board_history := [merged_up; merged_up] |}.

(** The same trajectory with learning switched off. *)
Definition frozen_agent : @weight_agent board :=
  {| net := tables_of (F32.of_int 1); alpha := F32.opp F32.zero;
     reward_history := [4; 0]; board_history := [merged_up; merged_up] |}.

End Grid.

(** ** A stream format for one table *)

(** Modelled from the spec: the stream operators of [weight.h] are not part
    of the sources.  The file format has, "for each table, its entries
    written as raw floating-point values in table order, with no other
    framing", and on loading "table sizes are expected to already match":
    a table is written as its entries, four bytes each, and read into a
    table of the size it already has.  A stream that ends early leaves the
    table as it was. *)
Module Raw.

Definition sign_bit (s : bool) : Z := if s then 2 ^ 31 else 0.

(** The binary32 interchange encoding; a NaN is written as the quiet NaN
    [0x7FC00000]. *)
Definition bits_of_float (x : float) : Z :=
  match x with
  | S754_zero s => sign_bit s
  | S754_infinity s => sign_bit s + 255 * 2 ^ 23
  | S754_nan => 255 * 2 ^ 23 + 2 ^ 22
  | S754_finite s m e =>
      if Z.pos m <? 2 ^ 23 then sign_bit s + Z.pos m
      else sign_bit s + (e + 150) * 2 ^ 23 + (Z.pos m - 2 ^ 23)
  end.

Definition float_of_bits (w : Z) : float :=
  let s := 2 ^ 31 <=? w in
  let ex := (w / 2 ^ 23) mod 2 ^ 8 in
  let mant := w mod 2 ^ 23 in
  if ex =? 0 then
    if mant =? 0 then S754_zero s else S754_finite s (Z.to_pos mant) (-149)
  else if ex =? 255 then
    if mant =? 0 then S754_infinity s else S754_nan
  else S754_finite s (Z.to_pos (mant + 2 ^ 23)) (ex - 150).

Definition put_weight (w : weight) : list Byte.byte :=
  concat ((fun x => write_u32 (bits_of_float x)) <$> w).

Fixpoint get_floats (n : nat) (s : list Byte.byte) : option (list float * list Byte.byte) :=
  match n with
  | O => Some ([], s)
  | S n =>
      match read_u32 s with
      | None => None
      | Some (w, s) =>
          match get_floats n s with
          | None => None
          | Some (xs, s) => Some (float_of_bits w :: xs, s)
          end
      end
  end.

Definition get_weight (w : weight) (s : list Byte.byte) : weight * list Byte.byte :=
  match get_floats (length w) s with
  | Some r => r
  | None => (w, [])
  end.

(** A value of [spec_float] that is a binary32 value. *)
Definition valid (x : float) : Prop := valid_binary F32.prec F32.emax x = true.

(** The table [cur] can receive the table [w]: it has the size of [w], and
    [w] holds binary32 values. *)
Definition fits (cur w : weight) : Prop :=
  length cur = length w /\ Forall valid w.

(** A small store, and a fresh one of the same shape. *)
Definition sample_store : list weight :=
  [[F32.of_int 1]; [Grid.half]; [S754_nan]; [F32.opp F32.zero];
   [S754_infinity true]; [F32.of_int (-3)]; [F32.max_float]; [S754_finite false 1 (-149)]].

Definition fresh_store : list weight := replicate 8 [F32.zero].

End Raw.

(** ** The base agent: properties parsed from the argument string *)

(** [isspace] in the "C" locale, which [ss >> pair] uses to delimit a
    token: space, and the control characters 9 to 13. *)
Definition is_space (c : Ascii.ascii) : bool :=
  let n := Ascii.N_of_ascii c in
  ((n =? 32) || ((9 <=? n) && (n <=? 13)))%N.

(** [for (std::string pair; ss >> pair; )]: the tokens of the stream, [cur]
    being the token read so far. *)
Fixpoint tokens_from (cur s : string) : list string :=
  match s with
  | EmptyString => if String.eqb cur "" then [] else [cur]
  | String c s =>
      if is_space c
      then (if String.eqb cur "" then [] else [cur]) ++ tokens_from "" s
      else tokens_from (cur +:+ String c "") s
  end.

Definition tokens (s : string) : list string := tokens_from "" s.

(** [std::string::npos], for a 64-bit [size_t]. *)
Definition npos : Z := 2 ^ 64 - 1.

(** [s.find(c)]: the index of the first [c], or [npos]. *)
Fixpoint find_from (c : Ascii.ascii) (s : string) (i : Z) : Z :=
  match s with
  | EmptyString => npos
  | String d s => if Ascii.eqb d c then i else find_from c s (i + 1)
  end.

Definition find (s : string) (c : Ascii.ascii) : Z := find_from c s 0.

(** [s.substr(pos, len)]; [None] stands for the [std::out_of_range] thrown
    when [pos] is beyond the end. *)
Definition substr (s : string) (pos len : Z) : option string :=
  let size := Z.of_nat (String.length s) in
  if size <? pos then None
  else Some (String.substring (Z.to_nat pos) (Z.to_nat (Z.min len (size - pos))) s).

(** [pair.substr(0, pair.find('='))] and [pair.substr(pair.find('=') + 1)];
    the addition is on [size_t] and wraps. *)
Definition key_of (tok : string) : option string :=
  substr tok 0 (find tok "="%char).

Definition value_of (tok : string) : option string :=
  substr tok ((find tok "="%char + 1) mod 2 ^ 64) npos.

(** [meta[key] = { value }]. *)
Definition assign (meta : gmap string string) (tok : string) : option (gmap string string) :=
  key ← key_of tok; value ← value_of tok; Some (<[key := value]> meta).

Fixpoint assign_all (meta : gmap string string) (toks : list string)
  : option (gmap string string) :=
  match toks with
  | [] => Some meta
  | tok :: toks => meta ← assign meta tok; assign_all meta toks
  end.

(** [agent::agent(args)]: the property map of a new agent. *)
Definition agent_new (args : string) : option (gmap string string) :=
  assign_all ∅ (tokens ("name=unknown role=unknown " +:+ args)).

(** [property(key)] is [meta.at(key)]; [None] stands for the
    [std::out_of_range] thrown for a key that is not there. *)
Definition property (meta : gmap string string) (key : string) : option string :=
  meta !! key.

Definition notify (meta : gmap string string) (msg : string) : option (gmap string string) :=
  assign meta msg.

Definition name (meta : gmap string string) : option string := property meta "name".
Definition role (meta : gmap string string) : option string := property meta "role".

(** Whether the character [c] occurs in [s]. *)
Fixpoint occurs (c : Ascii.ascii) (s : string) : bool :=
  match s with
  | EmptyString => false
  | String d s => Ascii.eqb d c || occurs c s
  end.

(** The argument strings that the derived classes hand to the base class. *)
Definition weight_agent_args (args : string) : string :=
  "name=weight_agent role=environment " +:+ args.
Definition rndenv_args (args : string) : string := "name=random role=environment " +:+ args.
Definition player_args (args : string) : string := "name=dummy role=player " +:+ args.

(** ** The destructor of the learning agent, the environment and the player *)

Section Others.

Context {board : Type}.
Variable cell : board -> Z -> Z.
Variable slide : board -> Z -> board * Z.
Variable put_weight : weight -> list Byte.byte.

(** [~weight_agent()]: the tables are saved when the property [save] is
    there. *)
Definition delete_weight_agent (meta : gmap string string) (can_open : bool)
  (fs : gmap string (list Byte.byte)) (a : @weight_agent board)
  : outcome (gmap string (list Byte.byte)) :=
  match meta !! "save" with
  | Some path => save_weights put_weight path can_open fs (net a)
  | None => Done fs
  end.

(** The random engine of [random_agent] is left abstract: [shuffle] is
    [std::shuffle(space.begin(), space.end(), engine)] and [popup] is one
    draw of [std::uniform_int_distribution<int>(0, 9)]; both advance the
    engine. *)
Context {engine : Type}.
Variable shuffle : engine -> list Z -> list Z * engine.
Variable popup : engine -> Z * engine.

Record rndenv : Type := Rndenv {
  space : list Z;
  rnd_engine : engine
}.

(** [rndenv::rndenv]: [space] starts as 0, 1, ..., 15. *)
Definition rndenv_new (g : engine) : rndenv :=
  {| space := [0; 1; 2; 3; 4; 5; 6; 7; 8; 9; 10; 11; 12; 13; 14; 15]; rnd_engine := g |}.

(** [for (int pos : space)]: the first position whose cell is empty. *)
Fixpoint first_empty (after : board) (space : list Z) : option Z :=
  match space with
  | [] => None
  | pos :: space => if negb (cell after pos =? 0) then first_empty after space else Some pos
  end.

(** [rndenv::take_action]: the action, and the environment after the call. *)
Definition rndenv_take_action (e : rndenv) (after : board) : action * rndenv :=
  let '(space, g) := shuffle (rnd_engine e) (space e) in
  match first_empty after space with
  | Some pos =>
      let '(draw, g) := popup g in
      let tile := if negb (draw =? 0) then 1 else 2 in
      (action_place pos tile, {| space := space; rnd_engine := g |})
  | None => (action_none, {| space := space; rnd_engine := g |})
  end.

(** [r *= k] on an [int]: a product outside the range of [int] is an
    overflow, which is undefined.  [board::reward] is taken to be [int],
    the type of [max_reward]. *)
Definition int_mul (r k : Z) : outcome Z :=
  if (- 2 ^ 31 <=? r * k) && (r * k <? 2 ^ 31) then Done (r * k) else Undefined.

(** The locals [move] and [max_reward] of [player::take_action]. *)
Record choice : Type := Choice {
  move : Z;
  best_reward : Z
}.

(** The body of [for (int op : opcode)]. *)
Definition player_try (before : board) (op : Z) (c : choice) : outcome choice :=
  let one_step := before in
  let r := (slide one_step op).2 in
  if r =? -1 then Done c
  else
    let! r := if op =? 0 then int_mul r 6
              else if op =? 1 then int_mul r 7
              else int_mul r 3 in
    if r >? best_reward c then Done {| move := op; best_reward := r |}
    else Done c.

Fixpoint player_loop (before : board) (opcode : list Z) (c : choice) : outcome choice :=
  match opcode with
  | [] => Done c
  | op :: opcode => let! c := player_try before op c in player_loop before opcode c
  end.

(** [player::take_action], with [opcode] the order 0, 3, 1, 2 set by the
    constructor. *)
Definition player_take_action (before : board) : outcome action :=
  let! c := player_loop before [0; 3; 1; 2] {| move := -1; best_reward := -1 |} in
  if negb (best_reward c =? -1) then Done (action_slide (move c))
  else Done action_none.

End Others.

(** ** Invariants and samples for the other operations *)

Section Invariants.

Context {board : Type}.
Variable cell : board -> Z -> Z.
Variable slide : board -> Z -> board * Z.

(** An agent on which no operation can leave the bounds of a table: the
    tables are addressable, the recorded boards hold ranks from 0 to 24, and
    the two histories are paired. *)
Definition sound (a : @weight_agent board) : Prop :=
  addressable (net a) /\ Forall (ranks_ok cell) (board_history a) /\ paired a.

(** The tables a constructor starts [load_weights] from. *)
Definition initial_net (meta : gmap string string) : list weight :=
  match meta !! "init" with
  | Some info => init_weights info []
  | None => []
  end.

(** The property [load], when it is there, names a file that can be opened
    and holds at least the four bytes of the table count. *)
Definition loadable (meta : gmap string string) (fs : gmap string (list Byte.byte)) : Prop :=
  forall path, meta !! "load" = Some path ->
    exists s, fs !! path = Some s /\ (4 <= length s)%nat.

(** The property [alpha], when it is there, spells a number that
    [std::stod] reads and that lies in the range of [float]. *)
Definition alpha_converts {double : Type} (stod : string -> option double)
  (narrow : double -> option float) (meta : gmap string string) : Prop :=
  forall v, meta !! "alpha" = Some v -> exists d f, stod v = Some d /\ narrow d = Some f.

(** The factor that [player::take_action] applies to the reward of [op]. *)
Definition factor (op : Z) : Z :=
  if op =? 0 then 6 else if op =? 1 then 7 else 3.

Definition weighted (b : board) (op : Z) : Z := (slide b op).2 * factor op.

(** The rewards a board can give to the player without overflow: the
    sentinel, or a reward from 0 whose sevenfold fits an [int]. *)
Definition rewards_fit (b : board) : Prop :=
  forall op, op ∈ [0; 3; 1; 2] ->
    (slide b op).2 = -1 \/ (0 <= (slide b op).2 /\ 7 * (slide b op).2 < 2 ^ 31).

(** What the loop of [player::take_action] has established after the
    directions [seen]: nothing legal yet, or the direction [move] with the
    greatest weighted reward, the first such. *)
Definition chosen_so_far (b : board) (seen : list Z) (c : choice) : Prop :=
  (move c = -1 /\ best_reward c = -1 /\ forall o, o ∈ seen -> ~ legal slide b o) \/
  (exists l1 l2,
     seen = l1 ++ move c :: l2 /\ legal slide b (move c) /\
     best_reward c = weighted b (move c) /\ 0 <= best_reward c /\
     (forall o, o ∈ l1 -> legal slide b o -> weighted b o < best_reward c) /\
     (forall o, o ∈ l2 -> legal slide b o -> weighted b o <= best_reward c)).

End Invariants.

(** A sample random engine: a counter; shuffling reverses the list, and the
    draw is the counter modulo 10. *)
Module Dice.

Definition shuffle (g : Z) (l : list Z) : list Z * Z := (reverse l, g + 1).
Definition popup (g : Z) : Z * Z := (g mod 10, g + 1).

End Dice.

(** ** Outcomes and vectors *)

Lemma obind_Done {A B : Type} (c : outcome A) (k : A -> outcome B) (b : B) :
  obind c k = Done b <-> exists a, c = Done a /\ k a = Done b.
Proof.
  split.
  - destruct c as [a| | |]; simpl; intros H; try discriminate. exists a. auto.
  - intros (a & -> & H). exact H.
Qed.

Lemma vec_at_Done {A : Type} (v : list A) (i : Z) (x : A) :
  vec_at v i = Done x <-> 0 <= i /\ v !! Z.to_nat i = Some x.
Proof.
  unfold vec_at. destruct (Z.leb_spec 0 i) as [Hi|Hi].
  - destruct (v !! Z.to_nat i) as [y|]; split.
    + intros [= ->]. auto.
    + intros [_ [= ->]]. reflexivity.
    + discriminate.
    + intros [_ ?]. discriminate.
  - split; [discriminate | lia].
Qed.

Lemma vec_at_of_nat {A : Type} (v : list A) (n : nat) :
  vec_at v (Z.of_nat n) = match v !! n with Some x => Done x | None => Undefined end.
Proof.
  unfold vec_at. destruct (Z.leb_spec 0 (Z.of_nat n)); [|lia].
  now rewrite Nat2Z.id.
Qed.

Lemma vec_at_insert_eq {A : Type} (v : list A) (i : Z) (x y : A) :
  vec_at v i = Done x -> vec_at (<[Z.to_nat i := y]> v) i = Done y.
Proof.
  rewrite !vec_at_Done. intros [Hi Hx]. split; [exact Hi|].
  apply list_lookup_insert_eq. eapply lookup_lt_Some. exact Hx.
Qed.

Lemma vec_at_insert_ne {A : Type} (v : list A) (i j : Z) (y : A) :
  0 <= i -> i <> j -> vec_at (<[Z.to_nat i := y]> v) j = vec_at v j.
Proof.
  intros Hi Hij. unfold vec_at. destruct (Z.leb_spec 0 j) as [Hj|Hj]; [|reflexivity].
  rewrite list_lookup_insert_ne; [reflexivity | lia].
Qed.

(** Reading the tables after one [net[k][i] += d]. *)
Lemma net_at_net_add (net net' : list weight) (k i : Z) (d : float) :
  net_add net k i d = Done net' ->
  exists x, net_at net k i = Done x /\
    forall k' i', net_at net' k' i' =
      if bool_decide (k' = k /\ i' = i) then Done (F32.add x d) else net_at net k' i'.
Proof.
  unfold net_add, net_at. intros H.
  apply obind_Done in H as (w & Hw & H). apply obind_Done in H as (x & Hx & [= <-]).
  exists x. rewrite Hw. cbn [obind]. split; [exact Hx|]. intros k' i'.
  pose proof Hw as Hw'. apply vec_at_Done in Hw' as [Hk _].
  pose proof Hx as Hx'. apply vec_at_Done in Hx' as [Hi _].
  case_bool_decide as Hc.
  - destruct Hc as [-> ->].
    rewrite (vec_at_insert_eq _ _ _ _ Hw). cbn [obind].
    now rewrite (vec_at_insert_eq _ _ _ _ Hx).
  - destruct (decide (k' = k)) as [->|Hne].
    + rewrite (vec_at_insert_eq _ _ _ _ Hw), Hw. cbn [obind].
      apply vec_at_insert_ne; [exact Hi | intros ->; apply Hc; auto].
    + rewrite vec_at_insert_ne by (auto; lia). reflexivity.
Qed.

Lemma net_add_Done (net : list weight) (k i : Z) (d x : float) :
  net_at net k i = Done x -> exists net', net_add net k i d = Done net'.
Proof.
  unfold net_at, net_add. intros H. apply obind_Done in H as (w & Hw & Hx).
  rewrite Hw. cbn [obind]. rewrite Hx. cbn [obind]. eauto.
Qed.

(** ** The evaluator and the update, over an arbitrary board *)

Section Evaluator.

Context {board : Type}.
Variable cell : board -> Z -> Z.

Lemma feature_four (b : board) (c0 c1 c2 c3 : Z) :
  feature cell b [c0; c1; c2; c3] =
  cell b c0 * 25 * 25 * 25 + cell b c1 * 25 * 25 + cell b c2 * 25 + cell b c3.
Proof. unfold feature, base25. cbn. ring. Qed.

Lemma tuples_eq :
  tuples = [[0; 1; 2; 3]; [4; 5; 6; 7]; [8; 9; 10; 11]; [12; 13; 14; 15];
            [0; 4; 8; 12]; [1; 5; 9; 13]; [2; 6; 10; 14]; [3; 7; 11; 15]].
Proof. reflexivity. Qed.

Lemma v_value_evaluate (net : list weight) (b : board) :
  v_value cell net b = evaluate cell net b.
Proof.
  unfold evaluate. rewrite tuples_eq. cbn [sum_lookups Z.add Pos.add Pos.succ].
  rewrite !feature_four. reflexivity.
Qed.

Lemma adjust_table_adjust (al : float) (net : list weight) (b : board) (T : float) :
  adjust_table cell al net b T = adjust cell al net b T.
Proof.
  unfold adjust. rewrite <- v_value_evaluate.
  rewrite tuples_eq. cbn [add_to_tuples Z.add Pos.add Pos.succ].
  rewrite !feature_four. reflexivity.
Qed.

Lemma sum_lookups_Done (net : list weight) (b : board) (ts : list (list Z)) :
  forall (k : Z) (acc v : float),
    sum_lookups cell net b k ts acc = Done v ->
    forall (j : nat) (t : list Z), ts !! j = Some t ->
      exists x, net_at net (k + Z.of_nat j) (feature cell b t) = Done x.
Proof.
  induction ts as [|t0 ts IH]; intros k acc v H j t Hj; [discriminate|].
  cbn [sum_lookups] in H. apply obind_Done in H as (x & Hx & H).
  destruct j as [|j]; cbn [lookup list_lookup] in Hj.
  - injection Hj as <-. exists x. now replace (k + Z.of_nat 0) with k by lia.
  - destruct (IH _ _ _ H j t Hj) as (y & Hy). exists y.
    now replace (k + Z.of_nat (S j)) with (k + 1 + Z.of_nat j) by lia.
Qed.

Lemma add_to_tuples_spec (b : board) (d : float) (ts : list (list Z)) :
  forall (k : Z) (net : list weight),
    (forall j t, ts !! j = Some t ->
       exists x, net_at net (k + Z.of_nat j) (feature cell b t) = Done x) ->
    exists net', add_to_tuples cell net b k ts d = Done net' /\
      (forall j t, ts !! j = Some t ->
         exists x, net_at net (k + Z.of_nat j) (feature cell b t) = Done x /\
                   net_at net' (k + Z.of_nat j) (feature cell b t) = Done (F32.add x d)) /\
      (forall k' i',
         (forall j t, ts !! j = Some t -> k' = k + Z.of_nat j -> i' <> feature cell b t) ->
         net_at net' k' i' = net_at net k' i').
Proof.
  induction ts as [|t0 ts IH]; intros k net Hin.
  - exists net. cbn. split; [reflexivity|]. split; [intros ? ? [=] | reflexivity].
  - destruct (Hin 0%nat t0 eq_refl) as (x0 & Hx0).
    replace (k + Z.of_nat 0) with k in Hx0 by lia.
    destruct (net_add_Done _ _ _ d _ Hx0) as (net1 & Hadd).
    destruct (net_at_net_add _ _ _ _ _ Hadd) as (x0' & Hx0' & Hpt).
    assert (x0' = x0) as -> by congruence. clear Hx0'.
    assert (Hkeep : forall j i, net_at net1 (k + 1 + Z.of_nat j) i = net_at net (k + 1 + Z.of_nat j) i).
    { intros j i. rewrite Hpt. case_bool_decide as Hc; [lia | reflexivity]. }
    destruct (IH (k + 1) net1) as (net' & Hrun & Hhit & Hmiss).
    { intros j t Hj. rewrite Hkeep. destruct (Hin (S j) t Hj) as (x & Hx). exists x.
      now replace (k + 1 + Z.of_nat j) with (k + Z.of_nat (S j)) by lia. }
    exists net'. cbn [add_to_tuples]. rewrite Hadd. cbn [obind]. split; [exact Hrun|]. split.
    + intros [|j] t Hj; cbn [lookup list_lookup] in Hj.
      * injection Hj as <-. exists x0. replace (k + Z.of_nat 0) with k by lia.
        split; [exact Hx0|].
        rewrite Hmiss by (intros; lia). rewrite Hpt. now rewrite bool_decide_eq_true_2.
      * destruct (Hhit j t Hj) as (x & Hx & Hx'). exists x.
        replace (k + Z.of_nat (S j)) with (k + 1 + Z.of_nat j) by lia.
        rewrite <- Hkeep. auto.
    + intros k' i' Hne. rewrite Hmiss.
      * rewrite Hpt. case_bool_decide as Hc; [|reflexivity].
        destruct Hc as [-> ->]. exfalso. apply (Hne 0%nat t0 eq_refl); [lia | reflexivity].
      * intros j t Hj ->. apply (Hne (S j) t Hj). lia.
Qed.

(** C3. For every board, [v_value] is the sum, in tuple order, of the
    eight tuples' table entries (four rows, then four columns) at the
    board's feature indices; each feature index is the base-25 positional
    code of the tuple's four cell ranks, most significant cell first; and
    the result is a function of the tables and of the sixteen cell ranks
    alone. *)
Theorem v_value_is_tuple_sum (net : list weight) (b : board) :
  v_value cell net b = evaluate cell net b /\
  (forall t, t ∈ tuples ->
     exists c0 c1 c2 c3, t = [c0; c1; c2; c3] /\
       feature cell b t =
         cell b c0 * 25 ^ 3 + cell b c1 * 25 ^ 2 + cell b c2 * 25 ^ 1 + cell b c3 * 25 ^ 0) /\
  (forall b' : board,
     (forall i, 0 <= i < 16 -> cell b' i = cell b i) ->
     v_value cell net b' = v_value cell net b).
Proof.
  split; [apply v_value_evaluate|]. split.
  - intros t Ht. rewrite tuples_eq in Ht.
    repeat (apply elem_of_cons in Ht as [->|Ht];
            [do 4 eexists; split; [reflexivity|]; rewrite feature_four; ring|]).
    inversion Ht.
  - intros b' Hb. unfold v_value. rewrite !Hb by lia. reflexivity.
Qed.

(** C2. Whenever the value of [b] is defined, [adjust_table] computes the
    single [delta = alpha * (T - v_value b)] and adds it (a binary32
    addition) to the entry of each of the eight tuples addressed by [b]'s
    feature index; every other entry is left as it was.  With [T = 0], the
    terminal target, each of these entries becomes
    [old + alpha * (0 - v_value b)]. *)
Theorem adjust_table_adds_one_delta (al : float) (net : list weight) (b : board) (T v : float) :
  v_value cell net b = Done v ->
  exists net',
    adjust_table cell al net b T = Done net' /\
    (forall k t, tuples !! k = Some t ->
       exists x,
         net_at net (Z.of_nat k) (feature cell b t) = Done x /\
         net_at net' (Z.of_nat k) (feature cell b t) =
           Done (F32.add x (F32.mul al (F32.sub T v)))) /\
    (forall k i,
       (forall t, tuples !! Z.to_nat k = Some t -> i <> feature cell b t) ->
       net_at net' k i = net_at net k i).
Proof.
  intros Hv. rewrite adjust_table_adjust. unfold adjust.
  rewrite <- v_value_evaluate, Hv. cbn [obind].
  rewrite v_value_evaluate in Hv. unfold evaluate in Hv.
  destruct (add_to_tuples_spec b (F32.mul al (F32.sub T v)) tuples 0 net)
    as (net' & Hrun & Hhit & Hmiss).
  { intros j t Hj. apply (sum_lookups_Done _ _ _ _ _ _ Hv j t Hj). }
  exists net'. split; [exact Hrun|]. split.
  - intros k t Hk. apply (Hhit k t Hk).
  - intros k i Hne. apply Hmiss. intros j t Hj ->. apply Hne.
    now rewrite Z.add_0_l, Nat2Z.id.
Qed.

End Evaluator.

(** ** The episode hooks *)

Section Episode.

Context {board : Type}.
Variable cell : board -> Z -> Z.

Lemma td_sweep_learn_steps (al : float) (rh : list Z) (bh : list board) (k : nat) :
  forall net : list weight,
    td_sweep cell al rh bh k net = learn_steps cell al rh bh (reverse (seq 0 k)) net.
Proof.
  induction k as [|k IH]; intros net; [reflexivity|].
  rewrite seq_S, reverse_snoc. cbn [td_sweep learn_steps Nat.add]. unfold learn_step.
  destruct (vec_at bh (Z.of_nat k)) as [bt| | |]; cbn [obind]; try reflexivity.
  destruct (vec_at rh (Z.of_nat k + 1)) as [r| | |]; cbn [obind]; try reflexivity.
  destruct (vec_at bh (Z.of_nat k + 1)) as [bn| | |]; cbn [obind]; try reflexivity.
  rewrite v_value_evaluate.
  destruct (evaluate cell net bn) as [v| | |]; cbn [obind]; try reflexivity.
  rewrite adjust_table_adjust.
  destruct (adjust cell al net bt _) as [net'| | |]; cbn [obind]; try reflexivity.
  apply IH.
Qed.

Lemma close_episode_learn (a : @weight_agent board) :
  board_history a <> [] ->
  F32.eqb (alpha a) F32.zero = false ->
  close_episode cell a =
    let! net' := learn cell (alpha a) (reward_history a) (board_history a) (net a) in
    Done (Agent net' (alpha a) (reward_history a) (board_history a)).
Proof.
  intros Hne Hal. unfold close_episode, learn.
  rewrite bool_decide_eq_false_2 by (destruct (board_history a); [congruence | discriminate]).
  change (F32.of_int 0) with F32.zero. rewrite Hal.
  destruct (vec_at _ _) as [last| | |]; cbn [obind]; try reflexivity.
  rewrite adjust_table_adjust.
  destruct (adjust _ _ _ _ _) as [net1| | |]; cbn [obind]; try reflexivity.
  rewrite td_sweep_learn_steps.
  replace (Z.to_nat (Z.of_nat (length (board_history a)) - 1))
    with (length (board_history a) - 1)%nat by lia.
  reflexivity.
Qed.

(** C1. On a non-empty trajectory with a learning rate that does not
    compare equal to zero, [close_episode] is the backward pass [learn] of
    the specification: [s[n-1]] is adjusted toward [0], then [s[t]] toward
    [r[t+1] + v_value(s[t+1])] for [t = n-2, ..., 0], each value read from
    the tables as updated so far.  On a trajectory of length one it is the
    terminal update alone, and no reward or successor is read. *)
Theorem close_episode_backward_pass (a : @weight_agent board) :
  board_history a <> [] ->
  F32.eqb (alpha a) F32.zero = false ->
  close_episode cell a =
    (let! net' := learn cell (alpha a) (reward_history a) (board_history a) (net a) in
     Done (Agent net' (alpha a) (reward_history a) (board_history a))) /\
  (forall s0 : board,
     board_history a = [s0] ->
     close_episode cell a =
       let! net' := adjust_table cell (alpha a) (net a) s0 F32.zero in
       Done (Agent net' (alpha a) (reward_history a) (board_history a))).
Proof.
  intros Hne Hal. split; [now apply close_episode_learn|].
  intros s0 Hs. rewrite close_episode_learn by assumption.
  unfold learn. rewrite Hs.
  change (vec_at [s0] (Z.of_nat (length [s0]) - 1)) with (Done s0). cbn [obind].
  rewrite adjust_table_adjust. destruct (adjust _ _ _ _ _); reflexivity.
Qed.

(** C6. With an empty trajectory, or with a learning rate that compares
    equal to zero, [close_episode] returns the agent as it was: every
    table entry is the same value as before the call. *)
Theorem close_episode_no_learning (a : @weight_agent board) :
  board_history a = [] \/ F32.eqb (alpha a) F32.zero = true ->
  close_episode cell a = Done a.
Proof.
  intros [He|Hz]; unfold close_episode.
  - rewrite He. reflexivity.
  - case_bool_decide; [reflexivity|].
    change (F32.of_int 0) with F32.zero. now rewrite Hz.
Qed.

Lemma close_episode_histories (a a' : @weight_agent board) :
  close_episode cell a = Done a' ->
  reward_history a' = reward_history a /\ board_history a' = board_history a.
Proof.
  unfold close_episode. case_bool_decide as Hlen; [intros [= <-]; auto|].
  destruct (F32.eqb _ _); [intros [= <-]; auto|].
  intros H. apply obind_Done in H as (last & _ & H).
  apply obind_Done in H as (net1 & _ & H).
  apply obind_Done in H as (net2 & _ & [= <-]). auto.
Qed.

End Episode.

(** ** init_weights *)

Lemma weight_of_size_length (len : Z) :
  0 <= len -> Z.of_nat (length (weight_of_size len)) = len.
Proof. intros H. unfold weight_of_size. rewrite length_replicate. lia. Qed.

Lemma init_weights_app (info : string) (net : list weight) :
  init_weights info net = net ++ replicate 8 (weight_of_size 390625).
Proof.
  unfold init_weights, emplace_back. change (25 * 25 * 25 * 25) with 390625.
  rewrite <- !app_assoc. reflexivity.
Qed.

(** C10. For every argument string, [init_weights] appends exactly eight
    tables of [25^4 = 390625] entries each to the net, whatever the net
    held before: the tables already there stay in front. *)
Theorem init_weights_appends_eight (info info' : string) (net : list weight) :
  init_weights info net = init_weights info' net /\
  take (length net) (init_weights info net) = net /\
  length (init_weights info net) = (length net + 8)%nat /\
  Forall (fun w : weight => Z.of_nat (length w) = 25 ^ 4 /\ Z.of_nat (length w) = 390625)
         (drop (length net) (init_weights info net)).
Proof.
  rewrite !init_weights_app. split; [reflexivity|]. split; [|split].
  - now rewrite take_app_length.
  - now rewrite length_app, length_replicate.
  - rewrite drop_app_length. apply Forall_replicate.
    rewrite weight_of_size_length by lia. split; reflexivity.
Qed.

(** ** Comparison of binary32 values *)

Ltac float_cases :=
  rewrite ?Pos.compare_cont_spec; cbn [Pos.switch_Eq];
  repeat match goal with
    | |- context [Z.compare ?a ?b] => destruct (Z.compare_spec a b)
    | |- context [Pos.compare ?a ?b] => destruct (Pos.compare_spec a b)
    end;
  cbn; try discriminate; try reflexivity; intros; try lia.

(** A membership in an explicit list, case by case. *)
Ltac elems H :=
  cbn [app] in H;
  repeat (apply elem_of_cons in H as [H|H];
          [first [discriminate H | subst; first [lia | repeat constructor]]|]);
  inversion H.

Lemma gtb_irrefl (x : float) : F32.gtb x x = false.
Proof.
  unfold F32.gtb, SFltb, SFcompare.
  destruct x as [[]|[]| |[] m e]; try reflexivity; float_cases.
Qed.

Lemma gtb_asym (x y : float) : F32.gtb x y = true -> F32.gtb y x = false.
Proof.
  unfold F32.gtb, SFltb, SFcompare.
  destruct x as [[]|[]| |[] mx ex], y as [[]|[]| |[] my ey];
    try discriminate; try reflexivity; float_cases.
Qed.

Lemma gtb_not_nan (x y : float) : F32.gtb x y = true -> F32.is_nan x = false.
Proof. destruct x as [[]|[]| |[] mx ex], y as [[]|[]| |[] my ey]; auto. Qed.

(** [c < s] and not [c < s'], with [s'] a number, give [s' < s]. *)
Lemma gtb_chain (c s s' : float) :
  F32.gtb s c = true -> F32.gtb s' c = false -> F32.is_nan s' = false ->
  F32.gtb s s' = true.
Proof.
  unfold F32.gtb, F32.is_nan, SFltb, SFcompare.
  destruct c as [[]|[]| |[] mc ec], s as [[]|[]| |[] ms es], s' as [[]|[]| |[] m' e'];
    try discriminate; try reflexivity; try congruence;
    intros H1 H2 _; revert H1 H2; float_cases.
Qed.

Lemma gtb_eqb (x y : float) : F32.gtb x y = true -> F32.eqb y x = false.
Proof.
  unfold F32.gtb, F32.eqb, SFltb, SFeqb, SFcompare.
  destruct x as [[]|[]| |[] mx ex], y as [[]|[]| |[] my ey];
    try discriminate; try reflexivity; float_cases.
Qed.

Lemma gtb_nan (s x : float) :
  F32.is_nan s = true -> F32.gtb s x = false /\ F32.eqb s x = false.
Proof. destruct s; try discriminate. intros _. now destruct x as [[]|[]| |[] m e]. Qed.

(** A score [s] above the bar [c] beats every score [s'] that did not pass
    [c]. *)
Lemma gtb_beats (c s s' : float) :
  F32.gtb s c = true -> F32.gtb s' c = false -> beaten True s' s.
Proof.
  intros Hs Hs'. destruct (F32.is_nan s') eqn:Hnan.
  - destruct (gtb_nan s' s Hnan) as [H1 H2]. split; [exact H1|].
    intros _. split; [exact H2 | intros E; rewrite Hnan in E; discriminate].
  - pose proof (gtb_chain c s s' Hs Hs' Hnan) as H.
    split; [now apply gtb_asym|]. intros _. split; [now apply gtb_eqb | auto].
Qed.

(** The first bound is [-FLT_MAX]: adding [-1] to it rounds back. *)
Example first_bound_value : first_bound = F32.opp F32.max_float.
Proof. reflexivity. Qed.

(** ** The policy *)

Section Policy.

Context {board : Type}.
Variable new_board : board.
Variable cell : board -> Z -> Z.
Variable slide : board -> Z -> board * Z.

Lemma try_op_before (net : list weight) (op : Z) (f f' : frame) :
  try_op cell slide net op f = Done f' -> before f' = before f.
Proof.
  unfold try_op. destruct (slide (before f) op) as [after r].
  destruct (r =? -1); [intros [= <-]; reflexivity|].
  intros H. apply obind_Done in H as (val & _ & H).
  destruct (F32.gtb _ _); injection H as <-; reflexivity.
Qed.

Lemma for_ops_before (net : list weight) (ops : list Z) :
  forall f f', for_ops cell slide net ops f = Done f' -> before f' = before f.
Proof.
  induction ops as [|op ops IH]; intros f f' H; cbn [for_ops] in H.
  - now injection H as <-.
  - apply obind_Done in H as (f1 & H1 & H). rewrite (IH _ _ H).
    now apply try_op_before in H1.
Qed.

Lemma try_op_illegal (net : list weight) (op : Z) (f : frame) :
  (slide (before f) op).2 = -1 -> try_op cell slide net op f = Done f.
Proof.
  unfold try_op. destruct (slide (before f) op) as [after r]. cbn. intros ->. reflexivity.
Qed.

Lemma for_ops_illegal (net : list weight) (ops : list Z) (f : frame) :
  (forall op, op ∈ ops -> ~ legal slide (before f) op) ->
  for_ops cell slide net ops f = Done f.
Proof.
  unfold legal. induction ops as [|op ops IH]; intros H; cbn [for_ops]; [reflexivity|].
  rewrite try_op_illegal.
  - cbn [obind]. apply IH. intros o Ho. apply H. now right.
  - destruct (decide ((slide (before f) op).2 = -1)) as [E|E]; [exact E|].
    exfalso. apply (H op); [now left | exact E].
Qed.

(** C5. What the code does where the claim expects the null action: on a
    board where all four simulated slides return the sentinel, [take_action]
    leaves both history vectors, the tables and the board as they were, and
    returns [action::slide(best_move)] with [best_move] still [-1], not
    [action()]. *)
Theorem take_action_no_legal_move (a : @weight_agent board) (b : board) :
  (forall op, op ∈ [0; 1; 2; 3] -> ~ legal slide b op) ->
  take_action new_board cell slide a b = Done (action_slide (-1), a, b).
Proof.
  intros H. unfold take_action. rewrite for_ops_illegal by exact H. reflexivity.
Qed.

(** C7. Whenever [take_action] returns, the caller's board is the board
    that was passed in, so each of its cells holds the rank it held
    before the call: the slides work on the copy [after]. *)
Theorem take_action_keeps_board
  (a a' : @weight_agent board) (b b' : board) (act : action) :
  take_action new_board cell slide a b = Done (act, a', b') ->
  b' = b /\ forall i, cell b' i = cell b i.
Proof.
  unfold take_action. intros H. apply obind_Done in H as (f & Hf & [= <- <- <-]).
  apply for_ops_before in Hf. cbn in Hf. rewrite Hf. auto.
Qed.

Lemma take_action_histories (a a' : @weight_agent board) (b b' : board) (act : action) :
  take_action new_board cell slide a b = Done (act, a', b') ->
  (exists r s, reward_history a' = reward_history a ++ [r] /\
               board_history a' = board_history a ++ [s]) \/
  (reward_history a' = reward_history a /\ board_history a' = board_history a).
Proof.
  unfold take_action. intros H. apply obind_Done in H as (f & Hf & [= <- <- <-]).
  destruct (negb _); [left; eexists _, _; cbn; eauto | right; auto].
Qed.

(** [take_action] returns whenever the value of every legal afterstate is
    defined. *)
Lemma try_op_total (net : list weight) (op : Z) (f : frame) :
  (legal slide (before f) op -> exists v, v_value cell net (slide (before f) op).1 = Done v) ->
  exists f', try_op cell slide net op f = Done f'.
Proof.
  unfold try_op, legal. destruct (slide (before f) op) as [after r]. cbn [fst snd].
  destruct (Z.eqb_spec r (-1)) as [Hr|Hr]; intros H; [eexists; reflexivity|].
  destruct (H Hr) as (v & ->). cbn [obind]. destruct (F32.gtb _ _); eexists; reflexivity.
Qed.

Lemma for_ops_total (net : list weight) (b : board) (ops : list Z) :
  (forall op, op ∈ ops -> legal slide b op ->
     exists v, v_value cell net (slide b op).1 = Done v) ->
  forall f, before f = b -> exists f', for_ops cell slide net ops f = Done f'.
Proof.
  induction ops as [|op ops IH]; intros H f Hb; cbn [for_ops]; [eexists; reflexivity|].
  destruct (try_op_total net op f) as (f1 & Hf1).
  { rewrite Hb. apply H. now left. }
  rewrite Hf1. cbn [obind]. apply IH.
  - intros o Ho. apply H. now right.
  - apply try_op_before in Hf1. congruence.
Qed.

Lemma take_action_total (a : @weight_agent board) (b : board) :
  (forall op, op ∈ [0; 1; 2; 3] -> legal slide b op ->
     exists v, v_value cell (net a) (slide b op).1 = Done v) ->
  exists act a', take_action new_board cell slide a b = Done (act, a', b).
Proof.
  intros H. unfold take_action.
  destruct (for_ops_total (net a) b [0; 1; 2; 3] H
              {| before := b; best_move := -1; max_reward := -1;
                 max_val := F32.opp F32.max_float; next_board := new_board |} eq_refl)
    as (f & Hf).
  rewrite Hf. cbn [obind]. apply for_ops_before in Hf. cbn [before] in Hf. rewrite Hf.
  eexists _, _. reflexivity.
Qed.

Lemma try_op_step (net : list weight) (b : board) (seen : list Z) (op : Z) (f : frame) :
  before f = b ->
  (forall o, o ∈ seen -> o < op) ->
  (legal slide b op -> exists s, score cell slide net b op = Done s) ->
  none_yet cell slide net b seen f \/ best_so_far cell slide net b seen f ->
  exists f',
    try_op cell slide net op f = Done f' /\ before f' = b /\
    (none_yet cell slide net b (seen ++ [op]) f' \/
     best_so_far cell slide net b (seen ++ [op]) f').
Proof.
  intros Hb Hlt Hdef Hinv. unfold try_op. rewrite Hb.
  assert (Hleg : legal slide b op <-> (slide b op).2 <> -1) by reflexivity.
  assert (Hsc : score cell slide net b op =
                let! val := v_value cell net (slide b op).1 in
                Done (F32.add (F32.of_int (slide b op).2) val)) by reflexivity.
  destruct (slide b op) as [after r] eqn:Hs. cbn [fst snd] in Hleg, Hsc.
  destruct (Z.eqb_spec r (-1)) as [Hr|Hr].
  - exists f. split; [reflexivity|]. split; [exact Hb|].
    assert (Hill : ~ legal slide b op) by (rewrite Hleg; auto).
    destruct Hinv as [(? & ? & ? & Hnone)|(Hin & Hlb & Hmr & Hnb & Hv & Hab & Hall)];
      [left|right].
    + repeat split; auto. intros o s Ho Hlo.
      apply elem_of_app in Ho as [Ho|Ho]; [now apply Hnone|].
      apply list_elem_of_singleton in Ho as ->. contradiction.
    + split; [apply elem_of_app; now left|]. do 5 (split; [assumption|]).
      intros o s Ho Hlo Hso. apply elem_of_app in Ho as [Ho|Ho]; [now apply (Hall o s)|].
      apply list_elem_of_singleton in Ho as ->. contradiction.
  - destruct Hdef as (s & Hsd); [now apply Hleg|].
    rewrite Hsc in Hsd. apply obind_Done in Hsd as (val & Hval & [= <-]).
    rewrite Hval in Hsc |- *. cbn [obind] in Hsc |- *.
    assert (Hnew : forall f0 : frame,
               best_move f0 = op -> max_reward f0 = r -> max_val f0 = val ->
               next_board f0 = after ->
               F32.gtb (F32.add (F32.of_int r) val) first_bound = true ->
               (forall o s, o ∈ seen -> legal slide b o -> score cell slide net b o = Done s ->
                  beaten True s (F32.add (F32.of_int r) val)) ->
               best_so_far cell slide net b (seen ++ [op]) f0).
    { intros f0 E1 E2 E3 E4 Hab Hbeat. unfold best_so_far. rewrite E1, E2, E3, E4, Hs.
      cbn [fst snd].
      split; [apply elem_of_app; right; now apply list_elem_of_singleton|].
      split; [now apply Hleg|].
      split; [reflexivity|]. split; [reflexivity|]. split; [exact Hval|].
      split; [exact Hab|].
      intros o s Ho Hlo Hso. apply elem_of_app in Ho as [Ho|Ho].
      - destruct (Hbeat o s Ho Hlo Hso) as [H1 H2]. split; [exact H1 | intros _; now apply H2].
      - apply list_elem_of_singleton in Ho as ->.
        rewrite Hsc in Hso. injection Hso as <-. split; [apply gtb_irrefl | lia]. }
    destruct Hinv as [(Hbm & Hmr & Hmv & Hnone)|(Hin & Hlb & Hmr & Hnb & Hv & Hab & Hall)].
    + rewrite Hmr, Hmv.
      change (F32.add (F32.of_int (-1)) (F32.opp F32.max_float)) with first_bound.
      destruct (F32.gtb (F32.add (F32.of_int r) val) first_bound) eqn:Hcmp.
      * eexists. split; [reflexivity|]. split; [reflexivity|]. right.
        apply Hnew; [reflexivity.. |]. intros o s Ho Hlo Hso.
        apply (gtb_beats first_bound); [exact Hcmp | now apply (Hnone o s)].
      * exists f. split; [reflexivity|]. split; [exact Hb|]. left.
        repeat split; auto. intros o s Ho Hlo Hso.
        apply elem_of_app in Ho as [Ho|Ho]; [now apply (Hnone o s)|].
        apply list_elem_of_singleton in Ho as ->.
        rewrite Hsc in Hso. now injection Hso as <-.
    + destruct (F32.gtb (F32.add (F32.of_int r) val)
                  (F32.add (F32.of_int (max_reward f)) (max_val f))) eqn:Hcmp.
      * eexists. split; [reflexivity|]. split; [reflexivity|]. right.
        apply Hnew; [reflexivity.. | |].
        -- apply (gtb_chain _ _ _ Hcmp); [now apply gtb_asym | reflexivity].
        -- intros o s Ho Hlo Hso.
           apply (gtb_beats _ _ _ Hcmp). now apply (Hall o s).
      * exists f. split; [reflexivity|]. split; [exact Hb|]. right.
        split; [apply elem_of_app; now left|]. do 5 (split; [assumption|]).
        intros o s Ho Hlo Hso. apply elem_of_app in Ho as [Ho|Ho]; [now apply (Hall o s)|].
        apply list_elem_of_singleton in Ho as ->.
        rewrite Hsc in Hso. injection Hso as <-. split; [exact Hcmp|].
        intros Hlt'. specialize (Hlt _ Hin). lia.
Qed.

Lemma for_ops_chooses (net : list weight) (b : board) (f : frame) :
  before f = b ->
  none_yet cell slide net b [] f ->
  (forall o, o ∈ [0; 1; 2; 3] -> legal slide b o ->
     exists s, score cell slide net b o = Done s) ->
  exists f',
    for_ops cell slide net [0; 1; 2; 3] f = Done f' /\ before f' = b /\
    (none_yet cell slide net b [0; 1; 2; 3] f' \/
     best_so_far cell slide net b [0; 1; 2; 3] f').
Proof.
  intros Hb H0 Hdef. cbn [for_ops].
  destruct (try_op_step net b [] 0 f) as (f1 & E1 & Hb1 & H1);
    [exact Hb | intros o Ho; inversion Ho | apply Hdef; repeat constructor | auto |].
  rewrite E1. cbn [obind].
  destruct (try_op_step net b [0] 1 f1) as (f2 & E2 & Hb2 & H2);
    [exact Hb1 | intros o Ho; elems Ho | apply Hdef; repeat constructor | exact H1 |].
  rewrite E2. cbn [obind].
  destruct (try_op_step net b [0; 1] 2 f2) as (f3 & E3 & Hb3 & H3);
    [exact Hb2 | intros o Ho; elems Ho | apply Hdef; repeat constructor | exact H2 |].
  rewrite E3. cbn [obind].
  destruct (try_op_step net b [0; 1; 2] 3 f3) as (f4 & E4 & Hb4 & H4);
    [exact Hb3 | intros o Ho; elems Ho | apply Hdef; repeat constructor | exact H3 |].
  rewrite E4. cbn [obind].
  exists f4. auto.
Qed.

(** C4 (as amended). Let the value of every legal afterstate of [b] be
    defined, and let some legal direction among 0, 1, 2, 3 have a score
    [reward + v_value(afterstate)] that compares greater than the first
    bound [-1 + -FLT_MAX].  Then [take_action] returns the slide of a legal
    direction [best] whose score is above that bound, and records its reward
    and afterstate.  No legal direction has a score greater than that of
    [best], and no legal direction evaluated before [best] has a score equal
    to it: each of those has a strictly smaller score, or a score that is
    not a number.  In particular a single legal direction is the one
    returned. *)
Theorem take_action_greedy (a : @weight_agent board) (b : board) :
  (forall op, op ∈ [0; 1; 2; 3] -> legal slide b op ->
     exists s, score cell slide (net a) b op = Done s) ->
  (exists op, op ∈ [0; 1; 2; 3] /\ above_bound cell slide (net a) b op) ->
  exists best s_best,
    best ∈ [0; 1; 2; 3] /\ legal slide b best /\
    score cell slide (net a) b best = Done s_best /\
    F32.gtb s_best first_bound = true /\
    take_action new_board cell slide a b =
      Done (action_slide best, recorded a (slide b best).2 (slide b best).1, b) /\
    (forall op s,
       op ∈ [0; 1; 2; 3] -> legal slide b op -> score cell slide (net a) b op = Done s ->
       F32.gtb s s_best = false /\
       (op < best ->
        F32.eqb s s_best = false /\ (F32.is_nan s = false -> F32.gtb s_best s = true))) /\
    (forall op, op ∈ [0; 1; 2; 3] -> legal slide b op ->
       (forall o, o ∈ [0; 1; 2; 3] -> legal slide b o -> o = op) -> best = op).
Proof.
  intros Hdef (op & Hop & Hleg & s & Hs & Hgt). unfold take_action.
  destruct (for_ops_chooses (net a) b
              {| before := b; best_move := -1; max_reward := -1;
                 max_val := F32.opp F32.max_float; next_board := new_board |})
    as (f & -> & Hb & [(_ & _ & _ & Hnone)|(Hin & Hlb & Hmr & Hnb & Hv & Hab & Hall)]);
    [reflexivity | repeat split; intros o s' Ho; inversion Ho | exact Hdef
    | rewrite (Hnone op s Hop Hleg Hs) in Hgt; discriminate |].
  cbn [obind]. exists (best_move f), (F32.add (F32.of_int (max_reward f)) (max_val f)).
  split; [exact Hin|]. split; [exact Hlb|]. split.
  { unfold score. rewrite Hv, Hmr. reflexivity. }
  split; [exact Hab|]. split.
  { assert ((best_move f =? -1) = false) as ->.
    { apply Z.eqb_neq. intros E. rewrite E in Hin. elems Hin. }
    cbn [negb]. rewrite Hb, Hmr, Hnb. reflexivity. }
  split; [exact Hall|].
  intros o Ho Hlo Honly. now apply Honly.
Qed.

End Policy.

(** ** The recorded trajectory *)

Section Trajectory.

Context {board : Type}.
Variable new_board : board.
Variable cell : board -> Z -> Z.
Variable slide : board -> Z -> board * Z.
Variable get_weight : weight -> list Byte.byte -> weight * list Byte.byte.
Context {double : Type}.
Variable stod : string -> option double.
Variable narrow : double -> option float.

Lemma new_weight_agent_histories (meta : gmap string string)
  (fs : gmap string (list Byte.byte)) (a : @weight_agent board) :
  new_weight_agent get_weight stod narrow meta fs = Done a ->
  reward_history a = [] /\ board_history a = [].
Proof.
  unfold new_weight_agent. intros H. apply obind_Done in H as (nt & _ & H).
  apply obind_Done in H as (al & _ & [= <-]). auto.
Qed.

(** C9. The two history vectors have the same size after construction,
    and every operation keeps it so: [open_episode] empties both,
    [take_action] appends one element to each or to neither, and
    [close_episode] changes neither. *)
Theorem histories_stay_paired :
  (forall meta fs (a : @weight_agent board),
     new_weight_agent get_weight stod narrow meta fs = Done a -> paired a) /\
  (forall a : @weight_agent board,
     reward_history (open_episode a) = [] /\ board_history (open_episode a) = [] /\
     paired (open_episode a)) /\
  (forall (a a' : @weight_agent board) (b b' : board) (act : action),
     take_action new_board cell slide a b = Done (act, a', b') ->
     ((exists r s, reward_history a' = reward_history a ++ [r] /\
                   board_history a' = board_history a ++ [s]) \/
      (reward_history a' = reward_history a /\ board_history a' = board_history a)) /\
     (paired a -> paired a')) /\
  (forall a a' : @weight_agent board,
     close_episode cell a = Done a' ->
     reward_history a' = reward_history a /\ board_history a' = board_history a /\
     (paired a -> paired a')).
Proof.
  unfold paired. repeat split.
  - intros meta fs a H. apply new_weight_agent_histories in H as [-> ->]. reflexivity.
  - apply (take_action_histories _ _ _ _ _ _ _ _ H).
  - intros Hp. destruct (take_action_histories _ _ _ _ _ _ _ _ H)
      as [(r & s & -> & ->)|[-> ->]]; [|exact Hp].
    rewrite !length_app, Hp. reflexivity.
  - now apply close_episode_histories in H as [-> _].
  - now apply close_episode_histories in H as [_ ->].
  - apply close_episode_histories in H as [-> ->]. auto.
Qed.

End Trajectory.

(** ** Saving and loading *)

Lemma Z_of_byte_of_Z (z : Z) : Z_of_byte (byte_of_Z z) = z mod 256.
Proof.
  unfold Z_of_byte, byte_of_Z.
  assert (Hb : 0 <= z mod 256 < 256) by (apply Z.mod_pos_bound; lia).
  destruct (Byte.of_N (Z.to_N (z mod 256))) as [b|] eqn:E.
  - apply Byte.to_of_N in E. cbn. rewrite E. lia.
  - apply Byte.of_N_None_iff in E. lia.
Qed.

Lemma read_write_u32 (n : Z) (rest : list Byte.byte) :
  0 <= n < 2 ^ 32 -> read_u32 (write_u32 n ++ rest) = Some (n, rest).
Proof.
  intros Hn. cbn [write_u32 app read_u32]. rewrite !Z_of_byte_of_Z. do 2 f_equal.
  change (2 ^ 8) with 256. change (2 ^ 16) with 65536. change (2 ^ 24) with 16777216.
  change (2 ^ 32) with 4294967296 in Hn.
  Z.to_euclidean_division_equations; lia.
Qed.

Section Persistence.

Variable put_weight : weight -> list Byte.byte.
Variable get_weight : weight -> list Byte.byte -> weight * list Byte.byte.

(** What the table-level operators are assumed to do: a table that was
    written is read back, from the front of the stream, into any table that
    [fits] it. *)
Variable fits : weight -> weight -> Prop.
Hypothesis get_put :
  forall (cur w : weight) (rest : list Byte.byte),
    fits cur w -> get_weight cur (put_weight w ++ rest) = (w, rest).

Lemma read_tables_write_tables (cur net : list weight) (rest : list Byte.byte) :
  Forall2 fits cur net ->
  read_tables get_weight cur (write_tables put_weight net ++ rest) = (net, rest).
Proof.
  unfold write_tables. intros H. induction H as [|c w cur net Hcw _ IH]; [reflexivity|].
  cbn [fmap list_fmap concat read_tables]. rewrite <- app_assoc.
  rewrite (get_put _ _ _ Hcw). fold (fmap put_weight net). rewrite IH. reflexivity.
Qed.

Lemma load_after_save (net fresh : list weight) (path : string)
  (fs : gmap string (list Byte.byte)) :
  Z.of_nat (length net) < 2 ^ 32 ->
  Forall2 fits (resize fresh (Z.of_nat (length net))) net ->
  exists fs',
    save_weights put_weight path true fs net = Done fs' /\
    load_weights get_weight path fs' fresh = Done net.
Proof.
  intros Hlen Hfit. eexists. split; [reflexivity|].
  unfold load_weights. rewrite lookup_insert_eq.
  rewrite Z.mod_small by lia. rewrite read_write_u32 by lia.
  rewrite <- (app_nil_r (write_tables put_weight net)).
  rewrite (read_tables_write_tables _ _ [] Hfit). reflexivity.
Qed.

(** C8. Saving a store and loading the file into a fresh store gives back
    the store, and so the same [v_value] on every board, whenever the file
    can be opened, the store has fewer than [2^32] tables, and each table of
    the fresh store, resized to the count in the file, fits the table saved
    for it. *)
Theorem save_load_round_trip (net fresh : list weight) (path : string)
  (fs : gmap string (list Byte.byte)) :
  Z.of_nat (length net) < 2 ^ 32 ->
  Forall2 fits (resize fresh (Z.of_nat (length net))) net ->
  exists fs' net',
    save_weights put_weight path true fs net = Done fs' /\
    load_weights get_weight path fs' fresh = Done net' /\
    net' = net /\
    forall (board : Type) (cell : board -> Z -> Z) (b : board),
      v_value cell net' b = v_value cell net b.
Proof.
  intros Hlen Hfit.
  destruct (load_after_save net fresh path fs Hlen Hfit) as (fs' & Hsave & Hload).
  exists fs', net. auto.
Qed.

End Persistence.

(** *** The raw table format *)

Lemma digits2_pos_bounds (m : positive) :
  2 ^ (Z.pos (digits2_pos m) - 1) <= Z.pos m < 2 ^ Z.pos (digits2_pos m).
Proof.
  induction m as [m IH|m IH|]; cbn [digits2_pos]; [| |cbn; lia];
    rewrite Pos2Z.inj_succ;
    replace (Z.succ (Z.pos (digits2_pos m)) - 1)
      with (Z.succ (Z.pos (digits2_pos m) - 1)) by lia;
    rewrite !Z.pow_succ_r by lia; lia.
Qed.

(** A binary32 value is subnormal with exponent [-149], or normal with a
    24-bit mantissa. *)
Lemma valid_finite (s : bool) (m : positive) (e : Z) :
  Raw.valid (S754_finite s m e) ->
  (Z.pos m < 2 ^ 23 /\ e = -149) \/ (2 ^ 23 <= Z.pos m < 2 ^ 24 /\ -149 <= e <= 104).
Proof.
  unfold Raw.valid. cbn [valid_binary].
  unfold bounded, canonical_mantissa, fexp, emin, F32.prec, F32.emax.
  intros H. apply andb_true_iff in H as [H1 H2]. apply Z.eqb_eq in H1. apply Z.leb_le in H2.
  pose proof (digits2_pos_bounds m) as Hd.
  set (d := Z.pos (digits2_pos m)) in *.
  assert (Hdpos : 0 < d) by (unfold d; lia).
  destruct (Z_lt_le_dec d 24) as [Hlt|Hge].
  - left. split; [|lia].
    assert (2 ^ d <= 2 ^ 23) by (apply Z.pow_le_mono_r; lia). lia.
  - right. assert (d = 24) as Hd24 by lia. rewrite Hd24 in Hd. cbn in Hd. cbn. lia.
Qed.

Ltac bits_arith :=
  match goal with |- context [Raw.sign_bit ?s] => destruct s end;
  unfold Raw.sign_bit; change (2 ^ 31) with 2147483648;
  first [apply Z.leb_le; lia | apply Z.leb_gt; lia
        | Z.to_euclidean_division_equations; lia].

Lemma float_of_bits_of_float (x : float) :
  Raw.valid x ->
  0 <= Raw.bits_of_float x < 2 ^ 32 /\ Raw.float_of_bits (Raw.bits_of_float x) = x.
Proof.
  destruct x as [s|s| |s m e]; intros Hv;
    [destruct s; split; cbn; try lia; reflexivity ..
    | split; cbn; try lia; reflexivity |].
  apply valid_finite in Hv. unfold Raw.bits_of_float, Raw.float_of_bits.
  change (2 ^ 23) with 8388608 in *. change (2 ^ 24) with 16777216 in *.
  change (2 ^ 31) with 2147483648 in *. change (2 ^ 32) with 4294967296.
  change (2 ^ 8) with 256.
  destruct Hv as [[Hm ->]|[Hm He]].
  - destruct (Z.ltb_spec (Z.pos m) 8388608); [|lia].
    assert (Hs : 0 <= Raw.sign_bit s + Z.pos m < 4294967296) by (destruct s; cbn; lia).
    split; [exact Hs|].
    assert (E1 : ((Raw.sign_bit s + Z.pos m) / 8388608) mod 256 = 0) by bits_arith.
    assert (E2 : (Raw.sign_bit s + Z.pos m) mod 8388608 = Z.pos m) by bits_arith.
    assert (E3 : (2147483648 <=? Raw.sign_bit s + Z.pos m) = s) by bits_arith.
    rewrite E1, E2, E3. reflexivity.
  - destruct (Z.ltb_spec (Z.pos m) 8388608); [lia|].
    set (w := Raw.sign_bit s + (e + 150) * 8388608 + (Z.pos m - 8388608)).
    assert (Hs : 0 <= w < 4294967296) by (unfold w; destruct s; cbn; lia).
    split; [exact Hs|].
    assert (E1 : (w / 8388608) mod 256 = e + 150) by (unfold w; bits_arith).
    assert (E2 : w mod 8388608 = Z.pos m - 8388608) by (unfold w; bits_arith).
    assert (E3 : (2147483648 <=? w) = s) by (unfold w; bits_arith).
    rewrite E1, E2, E3.
    destruct (Z.eqb_spec (e + 150) 0); [lia|]. destruct (Z.eqb_spec (e + 150) 255); [lia|].
    f_equal; lia.
Qed.

Lemma raw_get_put (cur w : weight) (rest : list Byte.byte) :
  Raw.fits cur w -> Raw.get_weight cur (Raw.put_weight w ++ rest) = (w, rest).
Proof.
  intros [Hlen Hval]. unfold Raw.get_weight. rewrite Hlen.
  enough (Raw.get_floats (length w) (Raw.put_weight w ++ rest) = Some (w, rest)) as ->
    by reflexivity.
  clear cur Hlen.
  unfold Raw.put_weight. induction Hval as [|x w Hx _ IH]; [reflexivity|].
  cbn [length fmap list_fmap concat Raw.get_floats]. rewrite <- app_assoc.
  destruct (float_of_bits_of_float x Hx) as [Hb Hr].
  rewrite read_write_u32 by exact Hb.
  fold (fmap (fun x => write_u32 (Raw.bits_of_float x)) w). rewrite IH, Hr. reflexivity.
Qed.

(** The bytes of [1.0f], [0x3F800000], least significant byte first. *)
Example raw_one : Raw.put_weight [F32.of_int 1] = [Byte.x00; Byte.x00; Byte.x80; Byte.x3f].
Proof. reflexivity. Qed.

(** ** Under the invariants of the data model, nothing is undefined *)

Lemma init_weights_addressable (info : string) : addressable (init_weights info []).
Proof.
  intros k i Hk Hi. rewrite init_weights_app. exists F32.zero.
  unfold net_at, vec_at. destruct (Z.leb_spec 0 k) as [_|]; [|lia].
  cbn [app]. rewrite lookup_replicate_2 by lia. cbn [obind].
  destruct (Z.leb_spec 0 i) as [_|]; [|lia].
  unfold weight_of_size. change (25 ^ 4) with 390625 in Hi.
  rewrite lookup_replicate_2 by lia. reflexivity.
Qed.

Section Totality.

Context {board : Type}.
Variable cell : board -> Z -> Z.

Lemma feature_in_range (b : board) (t : list Z) :
  ranks_ok cell b -> t ∈ tuples -> 0 <= feature cell b t < 25 ^ 4.
Proof.
  intros Hb Ht. rewrite tuples_eq in Ht. change (25 ^ 4) with 390625.
  repeat (apply elem_of_cons in Ht as [->|Ht];
          [rewrite feature_four;
           match goal with |- _ <= cell b ?c0 * _ * _ * _ + cell b ?c1 * _ * _ + cell b ?c2 * _ + cell b ?c3 < _ =>
             pose proof (Hb c0 ltac:(lia)); pose proof (Hb c1 ltac:(lia));
             pose proof (Hb c2 ltac:(lia)); pose proof (Hb c3 ltac:(lia)); lia
           end|]).
  inversion Ht.
Qed.

Lemma tuples_addressed (net : list weight) (b : board) :
  addressable net -> ranks_ok cell b ->
  forall (j : nat) (t : list Z), tuples !! j = Some t ->
    exists x, net_at net (0 + Z.of_nat j) (feature cell b t) = Done x.
Proof.
  intros Hnet Hb j t Hj. apply Hnet.
  - apply lookup_lt_Some in Hj. change (length tuples) with 8%nat in Hj. lia.
  - apply feature_in_range; [exact Hb|]. eapply list_elem_of_lookup_2. exact Hj.
Qed.

Lemma sum_lookups_total (net : list weight) (b : board) (ts : list (list Z)) :
  forall (k : Z) (acc : float),
    (forall j t, ts !! j = Some t ->
       exists x, net_at net (k + Z.of_nat j) (feature cell b t) = Done x) ->
    exists v, sum_lookups cell net b k ts acc = Done v.
Proof.
  induction ts as [|t ts IH]; intros k acc H; [eexists; reflexivity|].
  cbn [sum_lookups]. destruct (H 0%nat t eq_refl) as (x & Hx).
  replace (k + Z.of_nat 0) with k in Hx by lia. rewrite Hx. cbn [obind].
  apply IH. intros j t' Hj. destruct (H (S j) t' Hj) as (y & Hy). exists y.
  now replace (k + 1 + Z.of_nat j) with (k + Z.of_nat (S j)) by lia.
Qed.

Lemma v_value_total (net : list weight) (b : board) :
  addressable net -> ranks_ok cell b -> exists v, v_value cell net b = Done v.
Proof.
  intros Hnet Hb. rewrite v_value_evaluate. apply sum_lookups_total.
  now apply tuples_addressed.
Qed.

Lemma adjust_table_total (al : float) (net : list weight) (b : board) (T : float) :
  addressable net -> ranks_ok cell b ->
  exists net', adjust_table cell al net b T = Done net' /\ addressable net'.
Proof.
  intros Hnet Hb. destruct (v_value_total net b Hnet Hb) as (v & Hv).
  rewrite adjust_table_adjust. unfold adjust. rewrite <- v_value_evaluate, Hv. cbn [obind].
  destruct (add_to_tuples_spec cell b (F32.mul al (F32.sub T v)) tuples 0 net
              (tuples_addressed net b Hnet Hb)) as (net' & Hrun & Hhit & Hmiss).
  exists net'. split; [exact Hrun|]. intros k i Hk Hi.
  destruct (tuples !! Z.to_nat k) as [t|] eqn:Ht.
  - destruct (Z.eq_dec i (feature cell b t)) as [->|Hne].
    + destruct (Hhit _ _ Ht) as (x & _ & Hx). rewrite Z.add_0_l, Z2Nat.id in Hx by lia. eauto.
    + rewrite Hmiss; [now apply Hnet|]. intros j t' Hj ->.
      rewrite Z.add_0_l, Nat2Z.id in Ht. congruence.
  - apply lookup_ge_None in Ht. change (length tuples) with 8%nat in Ht. lia.
Qed.

Lemma td_sweep_total (al : float) (rh : list Z) (bh : list board) (k : nat) :
  Forall (ranks_ok cell) bh -> length rh = length bh ->
  forall net, (k < length bh)%nat -> addressable net ->
    exists net', td_sweep cell al rh bh k net = Done net'.
Proof.
  intros Hbh Hlen. induction k as [|k IH]; intros net Hk Hnet; [eexists; reflexivity|].
  cbn [td_sweep].
  destruct (lookup_lt_is_Some_2 bh k) as (bt & Hbt); [lia|].
  destruct (lookup_lt_is_Some_2 bh (S k)) as (bn & Hbn); [lia|].
  destruct (lookup_lt_is_Some_2 rh (S k)) as (r & Hr); [lia|].
  replace (Z.of_nat k + 1) with (Z.of_nat (S k)) by lia.
  rewrite !vec_at_of_nat, Hbt, Hr, Hbn. cbn [obind].
  pose proof (proj1 (Forall_lookup _ _) Hbh) as Hok.
  destruct (v_value_total net bn Hnet (Hok _ _ Hbn)) as (v & ->). cbn [obind].
  destruct (adjust_table_total al net bt (F32.add (F32.of_int r) v) Hnet (Hok _ _ Hbt))
    as (net1 & -> & Hnet1). cbn [obind].
  apply IH; [lia | exact Hnet1].
Qed.

(** On an agent that satisfies the invariants, [close_episode] returns. *)
Lemma close_episode_total (a : @weight_agent board) :
  addressable (net a) -> Forall (ranks_ok cell) (board_history a) -> paired a ->
  exists a', close_episode cell a = Done a'.
Proof.
  intros Hnet Hbh Hp. unfold close_episode.
  case_bool_decide as Hn; [eexists; reflexivity|].
  destruct (F32.eqb _ _); [eexists; reflexivity|].
  destruct (lookup_lt_is_Some_2 (board_history a) (length (board_history a) - 1))
    as (last & Hlast); [lia|].
  replace (Z.of_nat (length (board_history a)) - 1)
    with (Z.of_nat (length (board_history a) - 1)) by lia.
  rewrite vec_at_of_nat, Hlast. cbn [obind].
  pose proof (proj1 (Forall_lookup _ _) Hbh) as Hok.
  destruct (adjust_table_total (alpha a) (net a) last (F32.of_int 0) Hnet (Hok _ _ Hlast))
    as (net1 & -> & Hnet1). cbn [obind].
  rewrite Nat2Z.id.
  destruct (td_sweep_total (alpha a) (reward_history a) (board_history a)
              (length (board_history a) - 1) Hbh Hp net1) as (net2 & ->);
    [lia | exact Hnet1 |].
  eexists. reflexivity.
Qed.

End Totality.

(** Saving a store of eight full tables of binary32 values, in the raw
    format, and loading it into a freshly initialised store gives it back. *)
Lemma raw_round_trip_initialised (net : list weight) (info path : string)
  (fs : gmap string (list Byte.byte)) :
  length net = 8%nat ->
  Forall (fun w : weight => Z.of_nat (length w) = 25 ^ 4 /\ Forall Raw.valid w) net ->
  exists fs',
    save_weights Raw.put_weight path true fs net = Done fs' /\
    load_weights Raw.get_weight path fs' (init_weights info []) = Done net.
Proof.
  intros Hlen Hnet.
  apply (load_after_save Raw.put_weight Raw.get_weight Raw.fits raw_get_put).
  - rewrite Hlen. reflexivity.
  - rewrite init_weights_app, Hlen. unfold resize. cbn [app].
    rewrite take_replicate, length_replicate. cbn [Z.of_nat Pos.of_succ_nat Pos.succ].
    change (Z.to_nat 8) with 8%nat. cbn [Nat.min Nat.sub replicate]. rewrite app_nil_r.
    fold (replicate 8 (weight_of_size 390625)).
    apply Forall2_replicate_l; [exact Hlen|].
    eapply Forall_impl; [exact Hnet|]. intros w [Hw Hv]. split; [|exact Hv].
    unfold weight_of_size. rewrite length_replicate. change (25 ^ 4) with 390625 in Hw. lia.
Qed.

(** ** The theorems on the sample boards *)

Example two_tiles_slides :
  Grid.slide Grid.two_tiles 0 = (Grid.merged_up, 4) /\
  (Grid.slide Grid.two_tiles 1).2 = -1 /\
  (Grid.slide Grid.two_tiles 2).2 = 4 /\
  (Grid.slide Grid.two_tiles 3).2 = 0.
Proof. repeat split. Qed.

Example dead_board_is_dead (op : Z) :
  op ∈ [0; 1; 2; 3] -> ~ legal Grid.slide Grid.dead_board op.
Proof.
  intros Hop Hl. repeat (apply elem_of_cons in Hop as [->|Hop]; [now apply Hl|]).
  inversion Hop.
Qed.

Lemma close_episode_backward_pass_witness :
  board_history Grid.played_agent <> [] /\
  F32.eqb (alpha Grid.played_agent) F32.zero = false /\
  close_episode Grid.cell Grid.played_agent =
    (let! net' := learn Grid.cell (alpha Grid.played_agent) (reward_history Grid.played_agent)
                    (board_history Grid.played_agent) (net Grid.played_agent) in
     Done (Agent net' (alpha Grid.played_agent) (reward_history Grid.played_agent)
             (board_history Grid.played_agent))).
Proof.
  split; [discriminate|]. split; [reflexivity|].
  destruct (close_episode_backward_pass Grid.cell Grid.played_agent) as [H _];
    [discriminate | reflexivity | exact H].
Defined.

Lemma adjust_table_adds_one_delta_witness :
  exists net',
    adjust_table Grid.cell Grid.half (Grid.tables_of (F32.of_int 1)) Grid.merged_up F32.zero
      = Done net' /\
    net_at net' 0 2 = Done (F32.of_int (-3)) /\
    net_at net' 7 31250 = Done (F32.of_int (-3)) /\
    net_at net' 0 1 = Done (F32.of_int 1).
Proof.
  destruct (adjust_table_adds_one_delta Grid.cell Grid.half (Grid.tables_of (F32.of_int 1))
              Grid.merged_up F32.zero (F32.of_int 8)) as (net' & Hrun & Hhit & Hmiss);
    [vm_compute; reflexivity|].
  exists net'. split; [exact Hrun|]. split; [|split].
  - destruct (Hhit 0%nat [0; 1; 2; 3] eq_refl) as (x & Hx & Hx').
    vm_compute in Hx. injection Hx as <-. exact Hx'.
  - destruct (Hhit 7%nat [3; 7; 11; 15] eq_refl) as (x & Hx & Hx').
    vm_compute in Hx. injection Hx as <-. exact Hx'.
  - rewrite (Hmiss 0 1); [vm_compute; reflexivity|].
    intros t [= <-]. vm_compute. discriminate.
Defined.

Lemma close_episode_no_learning_witness :
  close_episode Grid.cell Grid.bare_agent = Done Grid.bare_agent /\
  close_episode Grid.cell Grid.frozen_agent = Done Grid.frozen_agent.
Proof.
  split.
  - apply (close_episode_no_learning Grid.cell Grid.bare_agent). left. reflexivity.
  - apply (close_episode_no_learning Grid.cell Grid.frozen_agent). right. reflexivity.
Defined.

(** Closing the sample episode: the terminal update takes each addressed
    entry from [1] to [1 + 0.5 * (0 - 8) = -3]; the update of [s[0]] then
    sees the target [0 + -24] and an error of zero. *)
Example played_agent_learns :
  (let! a' := close_episode Grid.cell Grid.played_agent in
   let! hit := net_at (net a') 0 2 in
   let! missed := net_at (net a') 0 1 in
   let! v := v_value Grid.cell (net a') Grid.merged_up in
   Done (hit, missed, v))
  = Done (F32.of_int (-3), F32.of_int 1, F32.of_int (-24)).
Proof. vm_compute. reflexivity. Qed.

(** On [two_tiles] the directions up and down both merge for a reward of
    4 and left moves for nothing; right is illegal. *)
Ltac two_tiles_defined :=
  let op := fresh "op" in
  let Hop := fresh "Hop" in
  intros op Hop _;
  repeat (apply elem_of_cons in Hop as [->|Hop]; [eexists; vm_compute; reflexivity|]);
  inversion Hop.

Lemma take_action_greedy_witness :
  take_action Grid.new_board Grid.cell Grid.slide Grid.fresh_agent Grid.two_tiles =
    Done (action_slide 0, recorded Grid.fresh_agent 4 Grid.merged_up, Grid.two_tiles) /\
  take_action Grid.new_board Grid.cell Grid.slide Grid.inf_agent Grid.two_tiles =
    Done (action_slide 2, recorded Grid.inf_agent 4 Grid.merged_down, Grid.two_tiles).
Proof.
  split.
  - destruct (take_action_greedy Grid.new_board Grid.cell Grid.slide
                Grid.fresh_agent Grid.two_tiles)
      as (best & s_best & Hin & Hleg & Hscore & Hab & Hrun & Hmax & _).
    + two_tiles_defined.
    + exists 0. split; [constructor|]. split; [discriminate|].
      eexists. split; [vm_compute; reflexivity | reflexivity].
    + rewrite Hrun. assert (best = 0) as ->; [|reflexivity].
      destruct (Hmax 0 (F32.of_int 4)) as [_ Hlt];
        [constructor | discriminate | vm_compute; reflexivity |].
      apply elem_of_cons in Hin as [->|Hin]; [reflexivity|]. exfalso.
      apply elem_of_cons in Hin as [->|Hin]; [now apply Hleg|].
      apply elem_of_cons in Hin as [->|Hin].
      { vm_compute in Hscore. injection Hscore as <-.
        destruct Hlt as [H _]; [lia | discriminate H]. }
      apply elem_of_cons in Hin as [->|Hin]; [|inversion Hin].
      vm_compute in Hscore. injection Hscore as <-.
      destruct Hlt as [_ H]; [lia|]. specialize (H eq_refl). discriminate H.
  - destruct (take_action_greedy Grid.new_board Grid.cell Grid.slide
                Grid.inf_agent Grid.two_tiles)
      as (best & s_best & Hin & Hleg & Hscore & Hab & Hrun & Hmax & _).
    + two_tiles_defined.
    + exists 2. split; [repeat constructor|]. split; [discriminate|].
      eexists. split; [vm_compute; reflexivity | reflexivity].
    + rewrite Hrun. assert (best = 2) as ->; [|reflexivity].
      apply elem_of_cons in Hin as [->|Hin].
      { exfalso. vm_compute in Hscore. injection Hscore as <-. discriminate Hab. }
      apply elem_of_cons in Hin as [->|Hin]; [exfalso; now apply Hleg|].
      apply elem_of_cons in Hin as [->|Hin]; [reflexivity|]. exfalso.
      apply elem_of_cons in Hin as [->|Hin]; [|inversion Hin].
      vm_compute in Hscore. injection Hscore as <-.
      destruct (Hmax 2 (F32.of_int 4)) as [H _];
        [repeat constructor | discriminate | vm_compute; reflexivity |].
      discriminate H.
Defined.

(** How tables come to hold NaN: with learning rate 1 every update
    overshoots sevenfold; after 46 episodes the entries of [merged_up] have
    overflowed and are NaN, and the policy then picks no direction on
    [two_tiles]. *)
Example eager_agent_diverges :
  (let! a := Grid.replay 46 Grid.eager_agent in
   let! entry := net_at (net a) 1 0 in
   let! seen := observed (take_action Grid.new_board Grid.cell Grid.slide
                            (open_episode a) Grid.two_tiles) in
   Done (entry, seen))
  = Done (S754_nan, (action_slide (-1), [], [])).
Proof. vm_compute. reflexivity. Qed.

(** C4, as stated, fails: on a board with three legal directions the agent
    whose tables hold NaN returns the slide of no direction at all, and
    records nothing. *)
Lemma take_action_greedy_counterexample :
  legal Grid.slide Grid.two_tiles 0 /\
  score Grid.cell Grid.slide (net Grid.nan_agent) Grid.two_tiles 0 = Done S754_nan /\
  observed (take_action Grid.new_board Grid.cell Grid.slide Grid.nan_agent Grid.two_tiles) =
    Done (action_slide (-1), [], []) /\
  ~ (exists best a' b',
       best ∈ [0; 1; 2; 3] /\
       take_action Grid.new_board Grid.cell Grid.slide Grid.nan_agent Grid.two_tiles =
         Done (action_slide best, a', b')).
Proof.
  assert (Hrun : observed (take_action Grid.new_board Grid.cell Grid.slide
                             Grid.nan_agent Grid.two_tiles) =
                 Done (action_slide (-1), [], []))
    by (vm_compute; reflexivity).
  split; [discriminate|]. split; [vm_compute; reflexivity|]. split; [exact Hrun|].
  intros (best & a' & b' & Hin & H). rewrite H in Hrun. injection Hrun as -> _ _. elems Hin.
Qed.

Lemma take_action_no_legal_move_witness :
  take_action Grid.new_board Grid.cell Grid.slide Grid.played_agent Grid.checkered =
    Done (action_slide (-1), Grid.played_agent, Grid.checkered).
Proof.
  apply (take_action_no_legal_move Grid.new_board Grid.cell Grid.slide
           Grid.played_agent Grid.checkered).
  intros op Hop Hl. repeat (apply elem_of_cons in Hop as [->|Hop]; [now apply Hl|]).
  inversion Hop.
Defined.

(** The sibling [player::take_action] on the same board returns the null
    action. *)
Example player_on_checkered :
  player_take_action Grid.slide Grid.checkered = Done action_none.
Proof. reflexivity. Qed.

Lemma take_action_keeps_board_witness :
  exists act a',
    take_action Grid.new_board Grid.cell Grid.slide Grid.fresh_agent Grid.two_tiles =
      Done (act, a', Grid.two_tiles).
Proof.
  assert (Hd : is_done (take_action Grid.new_board Grid.cell Grid.slide
                          Grid.fresh_agent Grid.two_tiles) = true)
    by (vm_compute; reflexivity).
  destruct (take_action Grid.new_board Grid.cell Grid.slide Grid.fresh_agent Grid.two_tiles)
    as [[[act a'] b']| | |] eqn:E; try discriminate Hd.
  exists act, a'.
  destruct (take_action_keeps_board Grid.new_board Grid.cell Grid.slide
              Grid.fresh_agent a' Grid.two_tiles b' act E) as [-> _].
  reflexivity.
Defined.

Lemma v_value_is_tuple_sum_witness :
  v_value Grid.cell (Grid.tables_of (F32.of_int 1)) Grid.merged_up = Done (F32.of_int 8) /\
  feature Grid.cell Grid.merged_up [3; 7; 11; 15] = 31250.
Proof.
  destruct (v_value_is_tuple_sum Grid.cell (Grid.tables_of (F32.of_int 1)) Grid.merged_up)
    as (Hsum & Hfeat & _).
  split.
  - rewrite Hsum. vm_compute. reflexivity.
  - destruct (Hfeat [3; 7; 11; 15]) as (c0 & c1 & c2 & c3 & [= <- <- <- <-] & ->);
      [repeat constructor | reflexivity].
Defined.

Lemma histories_stay_paired_witness :
  paired (open_episode Grid.played_agent) /\
  (forall a', close_episode Grid.cell Grid.played_agent = Done a' -> paired a').
Proof.
  destruct (histories_stay_paired Grid.new_board Grid.cell Grid.slide
              Raw.get_weight Literal.stod Literal.narrow) as (_ & Hopen & _ & Hclose).
  split.
  - apply Hopen.
  - intros a' H. apply (Hclose _ _ H). reflexivity.
Defined.

Lemma save_load_round_trip_witness :
  exists fs',
    save_weights Raw.put_weight "weights.bin" true ∅ Raw.sample_store = Done fs' /\
    load_weights Raw.get_weight "weights.bin" fs' Raw.fresh_store = Done Raw.sample_store.
Proof.
  destruct (save_load_round_trip Raw.put_weight Raw.get_weight Raw.fits raw_get_put
              Raw.sample_store Raw.fresh_store "weights.bin" ∅)
    as (fs' & net' & Hsave & Hload & -> & _).
  - vm_compute. reflexivity.
  - repeat constructor.
  - exists fs'. auto.
Defined.

(** ** The property map of the base agent *)

Lemma find_from_range (c : Ascii.ascii) (s : string) :
  forall i, 0 <= i ->
    find_from c s i = npos \/ i <= find_from c s i < i + Z.of_nat (String.length s).
Proof.
  induction s as [|d s IH]; intros i Hi; cbn [find_from String.length]; [now left|].
  destruct (Ascii.eqb d c); [right; lia|].
  destruct (IH (i + 1)) as [H|H]; [lia | now left | right; lia].
Qed.

Lemma find_from_absent (c : Ascii.ascii) (s : string) :
  occurs c s = false -> forall i, find_from c s i = npos.
Proof.
  induction s as [|d s IH]; cbn [occurs find_from]; intros H i; [reflexivity|].
  apply orb_false_iff in H as [-> H]. now apply IH.
Qed.

Lemma append_nil (s : string) : "" +:+ s = s.
Proof. reflexivity. Qed.

Lemma append_cons (c : Ascii.ascii) (k s : string) : String c k +:+ s = String c (k +:+ s).
Proof. reflexivity. Qed.

Lemma append_assoc (k s t : string) : (k +:+ s) +:+ t = k +:+ s +:+ t.
Proof.
  induction k as [|c k IH]; [now rewrite !append_nil | now rewrite !append_cons, IH].
Qed.

Lemma find_from_first (c : Ascii.ascii) (k v : string) :
  occurs c k = false ->
  forall i, find_from c (k +:+ String c v) i = i + Z.of_nat (String.length k).
Proof.
  induction k as [|d k IH]; cbn [occurs String.length]; intros H i.
  - rewrite append_nil. cbn [find_from]. rewrite Ascii.eqb_refl. lia.
  - apply orb_false_iff in H as [Hd H]. rewrite append_cons. cbn [find_from].
    rewrite Hd, IH by exact H. lia.
Qed.

Lemma substring_all (s : string) (n : nat) :
  (String.length s <= n)%nat -> String.substring 0 n s = s.
Proof.
  revert n. induction s as [|c s IH]; intros [|n] H; cbn in *; try reflexivity; try lia.
  rewrite IH by lia. reflexivity.
Qed.

Lemma substring_prefix (k s : string) :
  String.substring 0 (String.length k) (k +:+ s) = k.
Proof.
  induction k as [|c k IH].
  - rewrite append_nil. now destruct s.
  - rewrite append_cons. cbn [String.length String.substring]. now rewrite IH.
Qed.

Lemma substring_suffix (k s : string) (n : nat) :
  String.substring (String.length k) n (k +:+ s) = String.substring 0 n s.
Proof.
  induction k as [|c k IH]; [now rewrite append_nil|].
  rewrite append_cons. cbn [String.length String.substring]. exact IH.
Qed.

Lemma length_append (k s : string) :
  String.length (k +:+ s) = (String.length k + String.length s)%nat.
Proof.
  induction k as [|c k IH]; [now rewrite append_nil|].
  rewrite append_cons. cbn [String.length]. now rewrite IH.
Qed.

(** Neither [substr] of the constructor can throw. *)
Lemma key_value_defined (tok : string) :
  exists k v, key_of tok = Some k /\ value_of tok = Some v.
Proof.
  unfold key_of, value_of, substr.
  destruct (Z.ltb_spec (Z.of_nat (String.length tok)) 0) as [H|_]; [lia|].
  destruct (find_from_range "="%char tok 0) as [H|H]; [lia | |]; unfold find.
  - rewrite H. change ((npos + 1) mod 2 ^ 64) with 0.
    destruct (Z.ltb_spec (Z.of_nat (String.length tok)) 0) as [H'|_]; [lia|]. eauto.
  - assert (Hm : 0 <= (find_from "="%char tok 0 + 1) mod 2 ^ 64 <= find_from "="%char tok 0 + 1).
    { split; [apply Z.mod_pos_bound; lia | apply Z.mod_le; lia]. }
    destruct (Z.ltb_spec (Z.of_nat (String.length tok))
                ((find_from "="%char tok 0 + 1) mod 2 ^ 64)) as [H'|_]; [lia|]. eauto.
Qed.

Lemma assign_insert (meta : gmap string string) (tok : string) :
  exists k v, key_of tok = Some k /\ value_of tok = Some v /\
              assign meta tok = Some (<[k := v]> meta).
Proof.
  destruct (key_value_defined tok) as (k & v & Hk & Hv). exists k, v.
  unfold assign. rewrite Hk, Hv. auto.
Qed.

(** What [assign_all] leaves under a key: the value of the last token with
    that key, or what was there when no token has it. *)
Lemma assign_all_lookup (toks : list string) :
  forall (meta : gmap string string),
  exists meta', assign_all meta toks = Some meta' /\
    forall k v, meta' !! k = Some v <->
      (exists l1 tok l2, toks = l1 ++ tok :: l2 /\ key_of tok = Some k /\
                         value_of tok = Some v /\
                         forall t, t ∈ l2 -> key_of t <> Some k) \/
      (meta !! k = Some v /\ forall t, t ∈ toks -> key_of t <> Some k).
Proof.
  induction toks as [|tok toks IH]; intros meta.
  - exists meta. split; [reflexivity|]. intros k v. split.
    + intros H. right. split; [exact H|]. intros t Ht. inversion Ht.
    + intros [(l1 & t & l2 & E & _)|[H _]]; [now destruct l1 | exact H].
  - destruct (assign_insert meta tok) as (k0 & v0 & Hk0 & Hv0 & Ha).
    destruct (IH (<[k0 := v0]> meta)) as (meta' & Hrun & Hlook).
    exists meta'. cbn [assign_all]. rewrite Ha. cbn. split; [exact Hrun|].
    intros k v. rewrite Hlook. split.
    + intros [(l1 & t & l2 & -> & Hk & Hv & Hl)|[Hin Hno]].
      * left. exists (tok :: l1), t, l2. auto.
      * destruct (decide (k0 = k)) as [->|Hne].
        -- rewrite lookup_insert_eq in Hin. injection Hin as <-.
           left. exists [], tok, toks. auto.
        -- rewrite lookup_insert_ne in Hin by exact Hne. right. split; [exact Hin|].
           intros t Ht. apply elem_of_cons in Ht as [->|Ht]; [congruence | now apply Hno].
    + intros [(l1 & t & l2 & E & Hk & Hv & Hl)|[Hin Hno]].
      * destruct l1 as [|t1 l1]; cbn in E; injection E as <- ->.
        -- right. split; [|exact Hl]. assert (k0 = k) as -> by congruence.
           rewrite lookup_insert_eq. congruence.
        -- left. exists l1, t, l2. auto.
      * right. split; [|intros t Ht; apply Hno; now right].
        rewrite lookup_insert_ne; [exact Hin|]. intros ->. apply (Hno tok); [now left | exact Hk0].
Qed.

Lemma tokens_defaults (args : string) :
  tokens ("name=unknown role=unknown " +:+ args) =
  "name=unknown" :: "role=unknown" :: tokens args.
Proof. reflexivity. Qed.

Lemma last_with_key (k : string) (l : list string) :
  (exists t, t ∈ l /\ key_of t = Some k) ->
  exists l1 t l2, l = l1 ++ t :: l2 /\ key_of t = Some k /\
                  forall t', t' ∈ l2 -> key_of t' <> Some k.
Proof.
  induction l as [|t0 l IH]; intros (t & Hin & Hk); [inversion Hin|].
  destruct (decide (Exists (fun t' => key_of t' = Some k) l)) as [Hl|Hl];
    rewrite Exists_exists in Hl.
  - destruct (IH Hl) as (l1 & t1 & l2 & -> & Hk1 & Hno). exists (t0 :: l1), t1, l2. auto.
  - apply elem_of_cons in Hin as [->|Hin]; [|exfalso; eauto].
    exists [], t0, l. split; [reflexivity|]. split; [exact Hk|].
    intros t' Ht' Hk'. apply Hl. eauto.
Qed.

Lemma assign_all_key_present (toks : list string) (meta meta' : gmap string string)
  (tok k : string) :
  assign_all meta toks = Some meta' -> tok ∈ toks -> key_of tok = Some k ->
  is_Some (meta' !! k).
Proof.
  intros Hrun Hin Hk. destruct (assign_all_lookup toks meta) as (m & Hm & Hlook).
  assert (m = meta') as -> by congruence.
  destruct (last_with_key k toks) as (l1 & t & l2 & E & Hkt & Hno); [eauto|].
  destruct (key_value_defined t) as (k' & v & Hk' & Hv).
  exists v. apply Hlook. left. exists l1, t, l2. auto.
Qed.

(** X1. Constructing an agent never throws, whatever the argument string,
    and the properties [name] and [role] are there afterwards, so [name()]
    and [role()] do not throw; [notify] never throws either and removes no
    property. *)
Theorem agent_new_has_name_and_role (args : string) :
  exists meta,
    agent_new args = Some meta /\
    is_Some (name meta) /\ is_Some (role meta) /\
    forall msg, exists meta',
      notify meta msg = Some meta' /\
      forall key, is_Some (property meta key) -> is_Some (property meta' key).
Proof.
  unfold agent_new, name, role, property. rewrite tokens_defaults.
  destruct (assign_all_lookup ("name=unknown" :: "role=unknown" :: tokens args) ∅)
    as (meta & Hrun & _).
  exists meta. split; [exact Hrun|]. split; [|split].
  - apply (assign_all_key_present _ _ _ "name=unknown" "name" Hrun); [now left | reflexivity].
  - apply (assign_all_key_present _ _ _ "role=unknown" "role" Hrun);
      [right; now left | reflexivity].
  - intros msg. destruct (assign_insert meta msg) as (k & v & _ & _ & Ha).
    exists (<[k := v]> meta). split; [exact Ha|]. intros key Hkey.
    destruct (decide (k = key)) as [->|Hne].
    + rewrite lookup_insert_eq. eauto.
    + now rewrite lookup_insert_ne.
Qed.

(** X2. After construction a property holds the value of the last token of
    the argument string (the defaults [name=unknown role=unknown] in front)
    that has its key: later tokens override earlier ones and the defaults,
    and a key that no token has is not there. *)
Theorem agent_new_last_token_wins (args : string) (meta : gmap string string)
  (key value : string) :
  agent_new args = Some meta ->
  (property meta key = Some value <->
   exists l1 tok l2,
     tokens ("name=unknown role=unknown " +:+ args) = l1 ++ tok :: l2 /\
     key_of tok = Some key /\ value_of tok = Some value /\
     forall t, t ∈ l2 -> key_of t <> Some key).
Proof.
  unfold agent_new, property. intros Hrun.
  destruct (assign_all_lookup (tokens ("name=unknown role=unknown " +:+ args)) ∅)
    as (m & Hm & Hlook).
  assert (m = meta) as -> by congruence. rewrite Hlook. split.
  - intros [H|[H _]]; [exact H|]. rewrite lookup_empty in H. discriminate.
  - intros H. now left.
Qed.

Lemma agent_new_last_token_wins_witness :
  exists meta,
    agent_new (weight_agent_args "alpha=0.1 name=td alpha=0.5") = Some meta /\
    property meta "alpha" = Some "0.5" /\ property meta "name" = Some "td" /\
    property meta "role" = Some "environment".
Proof.
  destruct (assign_all_lookup
              (tokens ("name=unknown role=unknown " +:+
                       weight_agent_args "alpha=0.1 name=td alpha=0.5")) ∅)
    as (meta & Hrun & _).
  exists meta. split; [exact Hrun|].
  pose proof (fun k v =>
                proj2 (agent_new_last_token_wins
                         (weight_agent_args "alpha=0.1 name=td alpha=0.5") meta k v Hrun)) as H.
  split; [|split].
  - apply (H "alpha" "0.5").
    exists ["name=unknown"; "role=unknown"; "name=weight_agent"; "role=environment";
            "alpha=0.1"; "name=td"], "alpha=0.5", [].
    repeat split. intros t Ht. inversion Ht.
  - apply (H "name" "td").
    exists ["name=unknown"; "role=unknown"; "name=weight_agent"; "role=environment";
            "alpha=0.1"], "name=td", ["alpha=0.5"].
    repeat split. intros t Ht. apply list_elem_of_singleton in Ht as ->. discriminate.
  - apply (H "role" "environment").
    exists ["name=unknown"; "role=unknown"; "name=weight_agent"], "role=environment",
           ["alpha=0.1"; "name=td"; "alpha=0.5"].
    repeat split. intros t Ht.
    repeat (apply elem_of_cons in Ht as [->|Ht]; [discriminate|]). inversion Ht.
Defined.

(** X3. A message [key=value] whose key holds no ['='] is split at its first
    ['=']: after [notify], [property(key)] is the value and every other
    property is as before. *)
Theorem notify_then_property (meta : gmap string string) (key value : string) :
  occurs "=" key = false ->
  Z.of_nat (String.length (key +:+ "=" +:+ value)) <= npos ->
  exists meta',
    notify meta (key +:+ "=" +:+ value) = Some meta' /\
    property meta' key = Some value /\
    forall other, other <> key -> property meta' other = property meta other.
Proof.
  intros Hk Hlen.
  change ("=" +:+ value) with (String "=" value) in *.
  rewrite length_append in Hlen. cbn [String.length] in Hlen.
  assert (Hfind : find (key +:+ String "=" value) "=" = Z.of_nat (String.length key)).
  { unfold find. now rewrite find_from_first. }
  assert (Hkey : key_of (key +:+ String "=" value) = Some key).
  { unfold key_of, substr. rewrite Hfind, length_append. cbn [String.length].
    destruct (Z.ltb_spec (Z.of_nat (String.length key + S (String.length value))) 0); [lia|].
    rewrite Z.sub_0_r, Z.min_l by lia. rewrite Nat2Z.id. change (Z.to_nat 0) with 0%nat.
    now rewrite substring_prefix. }
  assert (Hval : value_of (key +:+ String "=" value) = Some value).
  { unfold value_of, substr. rewrite Hfind. unfold npos in *.
    rewrite Z.mod_small by lia. rewrite length_append. cbn [String.length].
    destruct (Z.ltb_spec (Z.of_nat (String.length key + S (String.length value)))
                (Z.of_nat (String.length key) + 1)); [lia|].
    rewrite Z.min_r by lia.
    replace (Z.to_nat (Z.of_nat (String.length key) + 1))
      with (String.length (key +:+ "="))%nat
      by (rewrite length_append; cbn [String.length]; lia).
    change (String "=" value) with ("=" +:+ value). rewrite <- append_assoc.
    rewrite substring_suffix, substring_all by lia. reflexivity. }
  exists (<[key := value]> meta). unfold notify, assign, property.
  rewrite Hkey, Hval. split; [reflexivity|]. split; [apply lookup_insert_eq|].
  intros other Hne. now apply lookup_insert_ne.
Qed.

Lemma notify_then_property_witness :
  exists meta',
    notify ∅ "alpha=0.1=x" = Some meta' /\ property meta' "alpha" = Some "0.1=x".
Proof.
  destruct (notify_then_property ∅ "alpha" "0.1=x") as (meta' & Hn & Hp & _);
    [reflexivity | vm_compute; discriminate |].
  exists meta'. auto.
Defined.

(** X4. A token with no ['='] in it becomes a property whose key and value
    are both the whole token: [find] returns [npos], and [npos + 1] wraps to
    the start of the token. *)
Theorem token_without_equals (meta : gmap string string) (tok : string) :
  occurs "=" tok = false ->
  Z.of_nat (String.length tok) <= npos ->
  key_of tok = Some tok /\ value_of tok = Some tok /\
  assign meta tok = Some (<[tok := tok]> meta).
Proof.
  intros Hno Hlen.
  assert (Hfind : find tok "=" = npos) by (now apply find_from_absent).
  assert (Hsub : substr tok 0 npos = Some tok).
  { unfold substr. destruct (Z.ltb_spec (Z.of_nat (String.length tok)) 0); [lia|].
    rewrite Z.sub_0_r, Z.min_r by lia. rewrite Nat2Z.id. change (Z.to_nat 0) with 0%nat.
    now rewrite substring_all. }
  assert (Hk : key_of tok = Some tok) by (unfold key_of; now rewrite Hfind).
  assert (Hv : value_of tok = Some tok).
  { unfold value_of. rewrite Hfind. change ((npos + 1) mod 2 ^ 64) with 0. exact Hsub. }
  unfold assign. rewrite Hk, Hv. auto.
Qed.

Lemma token_without_equals_witness :
  assign ∅ "init" = Some (<["init" := "init"]> ∅).
Proof.
  destruct (token_without_equals ∅ "init") as (_ & _ & H);
    [reflexivity | vm_compute; discriminate | exact H].
Defined.

(** ** What play and learning leave alone *)

Lemma net_add_shape (net net' : list weight) (k i : Z) (d : float) :
  net_add net k i d = Done net' -> length <$> net' = length <$> net.
Proof.
  unfold net_add. intros H. apply obind_Done in H as (w & Hw & H).
  apply obind_Done in H as (x & _ & [= <-]). apply vec_at_Done in Hw as [_ Hw].
  unfold weight in *. rewrite list_fmap_insert, length_insert. apply list_insert_id.
  now rewrite list_lookup_fmap, Hw.
Qed.

Lemma net_at_Done_iff (net : list weight) (k : nat) (i : Z) :
  (exists x, net_at net (Z.of_nat k) i = Done x) <->
  exists w, net !! k = Some w /\ 0 <= i < Z.of_nat (length w).
Proof.
  unfold net_at. split.
  - intros (x & H). apply obind_Done in H as (w & Hw & Hx).
    apply vec_at_Done in Hw as [_ Hw]. apply vec_at_Done in Hx as [Hi Hx].
    rewrite Nat2Z.id in Hw. apply lookup_lt_Some in Hx. exists w. split; [exact Hw | lia].
  - intros (w & Hw & Hi).
    destruct (lookup_lt_is_Some_2 w (Z.to_nat i)) as (x & Hx); [lia|].
    exists x. apply obind_Done. exists w. split; apply vec_at_Done.
    + split; [lia | now rewrite Nat2Z.id].
    + split; [lia | exact Hx].
Qed.

(** An access to a vector returns or is undefined: it neither ends the
    process nor throws. *)
Lemma vec_at_cases {A : Type} (v : list A) (i : Z) :
  (exists x, vec_at v i = Done x) \/ vec_at v i = Undefined.
Proof.
  unfold vec_at. destruct (0 <=? i); [|now right].
  destruct (v !! Z.to_nat i); [left; eauto | now right].
Qed.

Lemma net_at_cases (net : list weight) (k i : Z) :
  (exists x, net_at net k i = Done x) \/ net_at net k i = Undefined.
Proof.
  unfold net_at. destruct (vec_at_cases net k) as [(w & ->)| ->]; cbn [obind];
    [apply vec_at_cases | now right].
Qed.

Section Lifecycle.

Context {board : Type}.
Variable new_board : board.
Variable cell : board -> Z -> Z.
Variable slide : board -> Z -> board * Z.
Variable get_weight : weight -> list Byte.byte -> weight * list Byte.byte.
Context {double : Type}.
Variable stod : string -> option double.
Variable narrow : double -> option float.

Lemma sum_lookups_cases (net : list weight) (b : board) (ts : list (list Z)) :
  forall (k : Z) (acc : float),
    (exists v, sum_lookups cell net b k ts acc = Done v) \/
    sum_lookups cell net b k ts acc = Undefined.
Proof.
  induction ts as [|t ts IH]; intros k acc; cbn [sum_lookups]; [left; eauto|].
  destruct (net_at_cases net k (feature cell b t)) as [(x & ->)| ->]; cbn [obind];
    [apply IH | now right].
Qed.

Lemma add_to_tuples_shape (b : board) (d : float) (ts : list (list Z)) :
  forall (k : Z) (net net' : list weight),
    add_to_tuples cell net b k ts d = Done net' -> length <$> net' = length <$> net.
Proof.
  induction ts as [|t ts IH]; intros k net net' H; cbn [add_to_tuples] in H.
  - now injection H as <-.
  - apply obind_Done in H as (net1 & H1 & H). rewrite (IH _ _ _ H).
    now apply net_add_shape in H1.
Qed.

Lemma adjust_table_shape (al : float) (net net' : list weight) (b : board) (T : float) :
  adjust_table cell al net b T = Done net' -> length <$> net' = length <$> net.
Proof.
  rewrite adjust_table_adjust. unfold adjust. intros H.
  apply obind_Done in H as (v & _ & H). now apply add_to_tuples_shape in H.
Qed.

Lemma td_sweep_shape (al : float) (rh : list Z) (bh : list board) (k : nat) :
  forall net net', td_sweep cell al rh bh k net = Done net' ->
    length <$> net' = length <$> net.
Proof.
  induction k as [|k IH]; intros net net' H; cbn [td_sweep] in H.
  - now injection H as <-.
  - apply obind_Done in H as (bt & _ & H). apply obind_Done in H as (r & _ & H).
    apply obind_Done in H as (bn & _ & H). apply obind_Done in H as (v & _ & H).
    apply obind_Done in H as (net1 & H1 & H). rewrite (IH _ _ H).
    now apply adjust_table_shape in H1.
Qed.

Lemma close_episode_cases (a a' : @weight_agent board) :
  close_episode cell a = Done a' ->
  a' = a \/
  exists last net1 net2,
    last ∈ board_history a /\
    adjust_table cell (alpha a) (net a) last (F32.of_int 0) = Done net1 /\
    td_sweep cell (alpha a) (reward_history a) (board_history a)
      (Z.to_nat (Z.of_nat (length (board_history a)) - 1)) net1 = Done net2 /\
    a' = Agent net2 (alpha a) (reward_history a) (board_history a).
Proof.
  unfold close_episode. case_bool_decide as Hn; [intros [= <-]; now left|].
  destruct (F32.eqb _ _); [intros [= <-]; now left|].
  intros H. apply obind_Done in H as (last & Hlast & H).
  apply obind_Done in H as (net1 & H1 & H). apply obind_Done in H as (net2 & H2 & [= <-]).
  right. exists last, net1, net2. split; [|auto].
  apply vec_at_Done in Hlast as [_ Hlast]. eapply list_elem_of_lookup_2. exact Hlast.
Qed.

(** X5. The policy only reads the weights: [take_action] returns an agent
    with the same tables and the same learning rate, [open_episode] keeps
    both, and [close_episode], the one operation that writes the tables,
    keeps the learning rate. *)
Theorem weights_change_only_in_close_episode :
  (forall (a a' : @weight_agent board) (b b' : board) (act : action),
     take_action new_board cell slide a b = Done (act, a', b') ->
     net a' = net a /\ alpha a' = alpha a) /\
  (forall a : @weight_agent board,
     net (open_episode a) = net a /\ alpha (open_episode a) = alpha a) /\
  (forall a a' : @weight_agent board,
     close_episode cell a = Done a' -> alpha a' = alpha a).
Proof.
  split; [|split].
  - intros a a' b b' act H. unfold take_action in H.
    apply obind_Done in H as (f & _ & [= _ <- _]). destruct (negb _); auto.
  - intros a. auto.
  - intros a a' H. apply close_episode_cases in H as [->|(l & n1 & n2 & _ & _ & _ & ->)]; auto.
Qed.

(** X6. Learning never resizes the weight store: after [close_episode] the
    net has the same number of tables, each of the size it had. *)
Theorem close_episode_keeps_shape (a a' : @weight_agent board) :
  close_episode cell a = Done a' ->
  length (net a') = length (net a) /\
  forall k w w', net a !! k = Some w -> net a' !! k = Some w' -> length w' = length w.
Proof.
  intros H.
  assert (Hs : length <$> net a' = length <$> net a).
  { apply close_episode_cases in H as [->|(l & n1 & n2 & _ & H1 & H2 & ->)]; [reflexivity|].
    cbn [net]. apply td_sweep_shape in H2. apply adjust_table_shape in H1. congruence. }
  split.
  - apply (f_equal length) in Hs. now rewrite !length_fmap in Hs.
  - intros k w w' Hw Hw'.
    assert (E : (length <$> net a') !! k = (length <$> net a) !! k) by now rewrite Hs.
    rewrite !list_lookup_fmap in E. unfold weight in *. rewrite Hw, Hw' in E.
    now injection E.
Qed.

(** X7. [v_value] stays within the vectors exactly when the net has a table
    for each of the eight tuples and the board's feature index for the
    tuple is an index of that table; with fewer than eight tables it is
    undefined on every board. *)
Theorem v_value_defined_iff (net : list weight) (b : board) :
  ((exists v, v_value cell net b = Done v) <->
   forall (k : nat) (t : list Z), tuples !! k = Some t ->
     exists w, net !! k = Some w /\ 0 <= feature cell b t < Z.of_nat (length w)) /\
  ((length net < 8)%nat -> v_value cell net b = Undefined).
Proof.
  assert (Hiff : (exists v, v_value cell net b = Done v) <->
                 forall (k : nat) (t : list Z), tuples !! k = Some t ->
                   exists w, net !! k = Some w /\ 0 <= feature cell b t < Z.of_nat (length w)).
  { split.
    - intros (v & Hv) k t Hk. apply net_at_Done_iff.
      rewrite v_value_evaluate in Hv. apply (sum_lookups_Done _ _ _ _ _ _ _ Hv k t Hk).
    - intros H. rewrite v_value_evaluate. apply sum_lookups_total.
      intros j t Hj. rewrite Z.add_0_l. apply net_at_Done_iff. now apply H. }
  split; [exact Hiff|]. intros Hlen.
  rewrite v_value_evaluate in Hiff |- *. unfold evaluate in *.
  destruct (sum_lookups_cases net b tuples 0 F32.zero) as [Hv|E]; [exfalso|exact E].
  destruct (proj1 Hiff Hv 7%nat [3; 7; 11; 15] eq_refl) as (w & Hw & _).
  apply lookup_lt_Some in Hw. unfold weight in *. lia.
Qed.

Lemma adjust_table_miss (al : float) (net net' : list weight) (b : board) (T : float) :
  adjust_table cell al net b T = Done net' ->
  forall k i, (forall t, tuples !! Z.to_nat k = Some t -> i <> feature cell b t) ->
    net_at net' k i = net_at net k i.
Proof.
  rewrite adjust_table_adjust. unfold adjust. intros H k i Hne.
  apply obind_Done in H as (v & Hv & Hrun). unfold evaluate in Hv.
  destruct (add_to_tuples_spec cell b (F32.mul al (F32.sub T v)) tuples 0 net)
    as (net'' & Hrun' & _ & Hmiss).
  { intros j t Hj. apply (sum_lookups_Done _ _ _ _ _ _ _ Hv j t Hj). }
  assert (net'' = net') as -> by congruence.
  apply Hmiss. intros j t Hj ->. apply Hne. now rewrite Z.add_0_l, Nat2Z.id.
Qed.

Lemma td_sweep_miss (al : float) (rh : list Z) (bh : list board) (k i : Z) :
  (forall s, s ∈ bh -> forall t, tuples !! Z.to_nat k = Some t -> i <> feature cell s t) ->
  forall (n : nat) (net net' : list weight),
    td_sweep cell al rh bh n net = Done net' -> net_at net' k i = net_at net k i.
Proof.
  intros Hne. induction n as [|n IH]; intros net net' H; cbn [td_sweep] in H.
  - now injection H as <-.
  - apply obind_Done in H as (bt & Hbt & H). apply obind_Done in H as (r & _ & H).
    apply obind_Done in H as (bn & _ & H). apply obind_Done in H as (v & _ & H).
    apply obind_Done in H as (net1 & H1 & H). rewrite (IH _ _ H).
    apply (adjust_table_miss _ _ _ _ _ H1). apply Hne.
    apply vec_at_Done in Hbt as [_ Hbt]. eapply list_elem_of_lookup_2. exact Hbt.
Qed.

(** X8. Learning touches only the weights of the recorded afterstates: an
    entry that no board of the trajectory addresses through the tuple of
    its table holds the same value after [close_episode]. *)
Theorem close_episode_touches_visited_only (a a' : @weight_agent board) (k i : Z) :
  close_episode cell a = Done a' ->
  (forall s, s ∈ board_history a ->
     forall t, tuples !! Z.to_nat k = Some t -> i <> feature cell s t) ->
  net_at (net a') k i = net_at (net a) k i.
Proof.
  intros H Hne.
  apply close_episode_cases in H as [->|(l & n1 & n2 & Hl & H1 & H2 & ->)]; [reflexivity|].
  cbn [net]. rewrite (td_sweep_miss _ _ _ _ _ Hne _ _ _ H2).
  apply (adjust_table_miss _ _ _ _ _ H1). now apply Hne.
Qed.

(** X9. An agent constructed without the property [alpha] has learning rate
    zero and never learns: whatever trajectory it has recorded,
    [close_episode] returns it unchanged. *)
Theorem default_alpha_never_learns (meta : gmap string string)
  (fs : gmap string (list Byte.byte)) (a : @weight_agent board) :
  meta !! "alpha" = None ->
  new_weight_agent get_weight stod narrow meta fs = Done a ->
  alpha a = F32.zero /\
  forall (rh : list Z) (bh : list board),
    close_episode cell (Agent (net a) (alpha a) rh bh) = Done (Agent (net a) (alpha a) rh bh).
Proof.
  intros Hal H. unfold new_weight_agent in H. rewrite Hal in H.
  apply obind_Done in H as (nt & _ & [= <-]). split; [reflexivity|].
  intros rh bh. unfold close_episode. cbn [board_history alpha].
  case_bool_decide; reflexivity.
Qed.

Lemma read_u32_None (s : list Byte.byte) : read_u32 s = None <-> (length s < 4)%nat.
Proof.
  destruct s as [|b0 [|b1 [|b2 [|b3 s]]]]; cbn; split; intros H; try reflexivity;
    try discriminate; lia.
Qed.

Ltac outcome_goal :=
  first [ lia | discriminate | solve [eauto 12]
        | solve [intros ? [= <-]; eauto 12]
        | solve [intros ? [= <-]; discriminate]
        | solve [split; outcome_goal]
        | solve [left; outcome_goal]
        | solve [right; outcome_goal] ].

(** Both directions of each equivalence, once the outcome is known. *)
Ltac outcome_cases :=
  repeat split; intros;
  repeat match goal with
    | H : _ /\ _ |- _ => destruct H
    | H : exists _, _ |- _ => destruct H
    | H : _ \/ _ |- _ => destruct H
    | H : forall x, Some ?a = Some x -> _ |- _ => specialize (H _ eq_refl)
    end;
  simplify_eq; outcome_goal.

Lemma load_weights_cases (path : string) (fs : gmap string (list Byte.byte))
  (net : list weight) :
  (fs !! path = None /\ load_weights get_weight path fs net = Exited) \/
  (exists s, fs !! path = Some s /\ (length s < 4)%nat /\
             load_weights get_weight path fs net = Undefined) \/
  (exists s nt, fs !! path = Some s /\ (4 <= length s)%nat /\
                load_weights get_weight path fs net = Done nt).
Proof.
  unfold load_weights. destruct (fs !! path) as [s|]; [right | now left].
  destruct (read_u32 s) as [[size rest]|] eqn:E.
  - right. exists s. eexists. split; [reflexivity|]. split; [|reflexivity].
    destruct (Nat.lt_ge_cases (length s) 4) as [Hl|Hl]; [|exact Hl].
    apply read_u32_None in Hl. congruence.
  - left. exists s. split; [reflexivity|]. split; [now apply read_u32_None | reflexivity].
Qed.

(** X10. How construction ends.  It ends the process exactly when the
    property [load] names a file that cannot be opened.  It is undefined
    exactly when that file is shorter than the four bytes of the count, or
    when the tables were read and [alpha] spells a number outside the range
    of [float].  It throws exactly when the tables were read and [std::stod]
    refuses the value of [alpha].  It returns in every other case: when
    [load] is absent or names a file of four bytes or more, and [alpha] is
    absent or converts. *)
Theorem new_weight_agent_failures (meta : gmap string string)
  (fs : gmap string (list Byte.byte)) :
  (@new_weight_agent board get_weight double stod narrow meta fs = Exited <->
   exists path, meta !! "load" = Some path /\ fs !! path = None) /\
  (@new_weight_agent board get_weight double stod narrow meta fs = Thrown <->
   loadable meta fs /\ exists v, meta !! "alpha" = Some v /\ stod v = None) /\
  (@new_weight_agent board get_weight double stod narrow meta fs = Undefined <->
   (exists path s, meta !! "load" = Some path /\ fs !! path = Some s /\ (length s < 4)%nat) \/
   (loadable meta fs /\
    exists v d, meta !! "alpha" = Some v /\ stod v = Some d /\ narrow d = None)) /\
  ((exists a, @new_weight_agent board get_weight double stod narrow meta fs = Done a) <->
   loadable meta fs /\ alpha_converts stod narrow meta).
Proof.
  unfold new_weight_agent, loadable, alpha_converts, to_float.
  destruct (meta !! "load") as [path|].
  - destruct (load_weights_cases path fs
                match meta !! "init" with Some info => init_weights info [] | None => [] end)
      as [[Hfs ->]|[(s & Hfs & Hl & ->)|(s & nt & Hfs & Hl & ->)]]; cbn [obind].
    + outcome_cases.
    + outcome_cases.
    + destruct (meta !! "alpha") as [v|];
        [destruct (stod v) as [d|] eqn:Hd; [destruct (narrow d) eqn:Hn|]|];
        cbn [obind]; outcome_cases.
  - cbn [obind].
    destruct (meta !! "alpha") as [v|];
      [destruct (stod v) as [d|] eqn:Hd; [destruct (narrow d) eqn:Hn|]|];
      cbn [obind]; outcome_cases.
Qed.

End Lifecycle.

Lemma weights_change_only_in_close_episode_witness :
  exists a',
    close_episode Grid.cell Grid.played_agent = Done a' /\ alpha a' = Grid.half.
Proof.
  assert (Hd : is_done (close_episode Grid.cell Grid.played_agent) = true)
    by (vm_compute; reflexivity).
  destruct (close_episode Grid.cell Grid.played_agent) as [a'| | |] eqn:E; try discriminate Hd.
  exists a'. split; [reflexivity|].
  destruct (@weights_change_only_in_close_episode Grid.board Grid.new_board Grid.cell Grid.slide)
    as (_ & _ & Hc).
  apply (Hc _ _ E).
Defined.

Lemma close_episode_keeps_shape_witness :
  exists a',
    close_episode Grid.cell Grid.played_agent = Done a' /\ length (net a') = 8%nat.
Proof.
  assert (Hd : is_done (close_episode Grid.cell Grid.played_agent) = true)
    by (vm_compute; reflexivity).
  destruct (close_episode Grid.cell Grid.played_agent) as [a'| | |] eqn:E; try discriminate Hd.
  exists a'. split; [reflexivity|].
  destruct (close_episode_keeps_shape Grid.cell Grid.played_agent a' E) as [-> _].
  apply length_replicate.
Defined.

Lemma v_value_defined_iff_witness :
  v_value Grid.cell (net Grid.bare_agent) Grid.two_tiles = Undefined.
Proof.
  apply (v_value_defined_iff Grid.cell (net Grid.bare_agent) Grid.two_tiles). cbn. lia.
Defined.

Lemma close_episode_touches_visited_only_witness :
  exists a',
    close_episode Grid.cell Grid.played_agent = Done a' /\
    net_at (net a') 0 1 = net_at (net Grid.played_agent) 0 1.
Proof.
  assert (Hd : is_done (close_episode Grid.cell Grid.played_agent) = true)
    by (vm_compute; reflexivity).
  destruct (close_episode Grid.cell Grid.played_agent) as [a'| | |] eqn:E; try discriminate Hd.
  exists a'. split; [reflexivity|].
  apply (close_episode_touches_visited_only Grid.cell Grid.played_agent a' 0 1 E).
  intros s Hs t [= <-].
  repeat (apply elem_of_cons in Hs as [->|Hs]; [discriminate|]). inversion Hs.
Defined.

Lemma default_alpha_never_learns_witness :
  close_episode Grid.cell
    (Agent (init_weights "init" []) F32.zero [4] [Grid.merged_up]) =
  Done (Agent (init_weights "init" []) F32.zero [4] [Grid.merged_up]).
Proof.
  destruct (default_alpha_never_learns Grid.cell Raw.get_weight Literal.stod Literal.narrow
              {["init" := "init"]} ∅ (Agent (init_weights "init" []) F32.zero [] []))
    as [_ H]; [reflexivity | reflexivity |].
  apply (H [4] [Grid.merged_up]).
Defined.

Lemma literal_half_converts (meta : gmap string string) :
  alpha_converts Literal.stod Literal.narrow (<["alpha" := "0.5"]> meta).
Proof.
  intros v H. rewrite lookup_insert_eq in H. injection H as <-.
  eexists _, _. split; reflexivity.
Qed.

Lemma new_weight_agent_failures_witness :
  @new_weight_agent Grid.board Raw.get_weight Literal.double Literal.stod Literal.narrow
    {["load" := "weights.bin"]} ∅ = Exited /\
  @new_weight_agent Grid.board Raw.get_weight Literal.double Literal.stod Literal.narrow
    {["load" := "weights.bin"]} {["weights.bin" := [Byte.x08; Byte.x00]]} = Undefined /\
  @new_weight_agent Grid.board Raw.get_weight Literal.double Literal.stod Literal.narrow
    {["alpha" := "abc"]} ∅ = Thrown /\
  @new_weight_agent Grid.board Raw.get_weight Literal.double Literal.stod Literal.narrow
    {["alpha" := "1e39"]} ∅ = Undefined /\
  exists a,
    @new_weight_agent Grid.board Raw.get_weight Literal.double Literal.stod Literal.narrow
      {["alpha" := "0.5"]} ∅ = Done a.
Proof.
  assert (Hno : forall (v : string) (fs : gmap string (list Byte.byte)),
             loadable {["alpha" := v]} fs).
  { intros v fs path H. rewrite lookup_singleton_ne in H by discriminate. discriminate. }
  split; [|split; [|split; [|split]]].
  - apply (new_weight_agent_failures Raw.get_weight Literal.stod Literal.narrow).
    exists "weights.bin". split; reflexivity.
  - apply (new_weight_agent_failures Raw.get_weight Literal.stod Literal.narrow).
    left. exists "weights.bin", [Byte.x08; Byte.x00]. repeat split. cbn. lia.
  - apply (new_weight_agent_failures Raw.get_weight Literal.stod Literal.narrow).
    split; [apply Hno|]. exists "abc". split; reflexivity.
  - apply (new_weight_agent_failures Raw.get_weight Literal.stod Literal.narrow).
    right. split; [apply Hno|]. exists "1e39". eexists. repeat split.
  - apply (new_weight_agent_failures Raw.get_weight Literal.stod Literal.narrow).
    split; [apply Hno|]. apply literal_half_converts.
Defined.

(** ** Files across the life of an agent *)

Lemma resize_length (net : list weight) (size : Z) :
  length (resize net size) = Z.to_nat size.
Proof. unfold resize. rewrite length_app, length_take, length_replicate. lia. Qed.

Lemma Z_of_byte_nonneg (b : Byte.byte) : 0 <= Z_of_byte b.
Proof. unfold Z_of_byte. lia. Qed.

Section Files.

Context {board : Type}.
Variable put_weight : weight -> list Byte.byte.
Variable get_weight : weight -> list Byte.byte -> weight * list Byte.byte.
Context {double : Type}.
Variable stod : string -> option double.
Variable narrow : double -> option float.

Lemma read_tables_length (net : list weight) :
  forall s, length (read_tables get_weight net s).1 = length net.
Proof.
  induction net as [|w net IH]; intros s; cbn [read_tables]; [reflexivity|].
  destruct (get_weight w s) as [w' s']. specialize (IH s').
  destruct (read_tables get_weight net s') as [ws s'']. cbn in *. now rewrite IH.
Qed.

(** X11. Whatever the table-level stream operators do, a file written by
    [save_weights] can be loaded, and loading it gives a net with as many
    tables as were saved (modulo [2^32], the width of the count), whatever
    the store held before: tables in excess are dropped and missing ones are
    added. *)
Theorem load_gives_saved_count (net before : list weight) (path : string)
  (fs : gmap string (list Byte.byte)) :
  exists fs' net',
    save_weights put_weight path true fs net = Done fs' /\
    load_weights get_weight path fs' before = Done net' /\
    Z.of_nat (length net') = Z.of_nat (length net) mod 2 ^ 32.
Proof.
  eexists _, _. split; [reflexivity|]. unfold load_weights. rewrite lookup_insert_eq.
  assert (Hr : 0 <= Z.of_nat (length net) mod 2 ^ 32 < 2 ^ 32) by (apply Z.mod_pos_bound; lia).
  rewrite read_write_u32 by exact Hr. split; [reflexivity|].
  rewrite read_tables_length, resize_length. lia.
Qed.

(** [~weight_agent] followed by [weight_agent::weight_agent] in a later run,
    the table-level operators being assumed to read back what they wrote
    into a table that [fits]. *)
Variable fits : weight -> weight -> Prop.
Hypothesis get_put :
  forall (cur w : weight) (rest : list Byte.byte),
    fits cur w -> get_weight cur (put_weight w ++ rest) = (w, rest).

(** X12. Weights survive a restart: when an agent with the property [save]
    is destroyed and a new agent is constructed with [load] naming the same
    file and with an [alpha] that converts (or none), the new agent starts
    with the tables of the old one, provided the tables the constructor
    starts from ([init] or none), resized to the saved count, fit the saved
    ones. *)
Theorem weights_survive_restart (old : @weight_agent board)
  (meta meta' : gmap string string) (path : string) (fs : gmap string (list Byte.byte)) :
  meta !! "save" = Some path ->
  meta' !! "load" = Some path ->
  alpha_converts stod narrow meta' ->
  Z.of_nat (length (net old)) < 2 ^ 32 ->
  Forall2 fits (resize (initial_net meta') (Z.of_nat (length (net old)))) (net old) ->
  exists fs' new,
    delete_weight_agent put_weight meta true fs old = Done fs' /\
    @new_weight_agent board get_weight double stod narrow meta' fs' = Done new /\
    net new = net old /\ reward_history new = [] /\ board_history new = [].
Proof.
  intros Hsave Hload Hal Hlen Hfit. unfold delete_weight_agent. rewrite Hsave.
  destruct (load_after_save put_weight get_weight fits get_put (net old)
              (initial_net meta') path fs Hlen Hfit) as (fs' & Hs & Hl).
  exists fs'.
  assert (Hread : exists al,
             match meta' !! "alpha" with
             | Some v => to_float stod narrow v
             | None => Done (F32.of_int 0)
             end = Done al).
  { unfold to_float. destruct (meta' !! "alpha") as [v|] eqn:E; [|eauto].
    destruct (Hal v E) as (d & f & -> & ->). eauto. }
  destruct Hread as (al & Hread).
  exists (Agent (net old) al [] []). split; [exact Hs|].
  unfold new_weight_agent. rewrite Hload. fold (initial_net meta'). rewrite Hl. cbn [obind].
  rewrite Hread. cbn [obind]. auto.
Qed.

End Files.

Lemma raw_fits_initialised (info : string) :
  Forall2 Raw.fits (resize (init_weights info []) 8) (init_weights info []).
Proof.
  rewrite init_weights_app. unfold resize. cbn [app].
  rewrite take_replicate, length_replicate.
  change (Z.to_nat 8) with 8%nat. cbn [Nat.min Nat.sub replicate]. rewrite app_nil_r.
  fold (replicate 8 (weight_of_size 390625)).
  apply Forall2_replicate_l; [apply length_replicate|].
  apply Forall_replicate. split; [reflexivity|].
  unfold weight_of_size. apply Forall_replicate. reflexivity.
Qed.

Lemma weights_survive_restart_witness :
  exists fs' new,
    delete_weight_agent Raw.put_weight {["save" := "w.bin"]} true ∅
      (Agent (init_weights "1" []) Grid.half [] [Grid.merged_up]) = Done fs' /\
    @new_weight_agent Grid.board Raw.get_weight Literal.double Literal.stod Literal.narrow
      (<["alpha" := "0.5"]> (<["init" := "1"]> {["load" := "w.bin"]})) fs' = Done new /\
    net new = init_weights "1" [].
Proof.
  destruct (weights_survive_restart Raw.put_weight Raw.get_weight Literal.stod Literal.narrow
              Raw.fits raw_get_put
              (Agent (init_weights "1" []) Grid.half [] [Grid.merged_up])
              {["save" := "w.bin"]}
              (<["alpha" := "0.5"]> (<["init" := "1"]> {["load" := "w.bin"]})) "w.bin" ∅)
    as (fs' & new & Hd & Hn & Hnet & _).
  - reflexivity.
  - reflexivity.
  - apply literal_half_converts.
  - cbn [net]. rewrite init_weights_app, length_app, length_replicate. cbn. lia.
  - cbn [net]. rewrite init_weights_app, length_app, length_replicate.
    change (Z.of_nat (length [] + 8)) with 8. rewrite <- (init_weights_app "1").
    change (initial_net (<["alpha" := "0.5"]> (<["init" := "1"]> {["load" := "w.bin"]})))
      with (init_weights "1" []).
    apply raw_fits_initialised.
  - exists fs', new. auto.
Defined.

(** ** No operation leaves the bounds of a table *)

Section Soundness.

Context {board : Type}.
Variable new_board : board.
Variable cell : board -> Z -> Z.
Variable slide : board -> Z -> board * Z.
Variable get_weight : weight -> list Byte.byte -> weight * list Byte.byte.
Context {double : Type}.
Variable stod : string -> option double.
Variable narrow : double -> option float.

Lemma try_op_next_board (net : list weight) (b : board) (op : Z) (f f' : frame) :
  before f = b ->
  (legal slide b op -> ranks_ok cell (slide b op).1) ->
  best_move f = -1 \/ ranks_ok cell (next_board f) ->
  try_op cell slide net op f = Done f' ->
  best_move f' = -1 \/ ranks_ok cell (next_board f').
Proof.
  intros Hb Hok Hf. unfold try_op, legal in *. rewrite Hb.
  destruct (slide b op) as [after r]. cbn [fst snd] in Hok.
  destruct (Z.eqb_spec r (-1)) as [Hr|Hr]; [intros [= <-]; exact Hf|].
  intros H. apply obind_Done in H as (val & _ & H).
  destruct (F32.gtb _ _); injection H as <-; [right; now apply Hok | exact Hf].
Qed.

Lemma for_ops_next_board (net : list weight) (b : board) (ops : list Z) :
  (forall op, op ∈ ops -> legal slide b op -> ranks_ok cell (slide b op).1) ->
  forall f f', before f = b ->
    best_move f = -1 \/ ranks_ok cell (next_board f) ->
    for_ops cell slide net ops f = Done f' ->
    best_move f' = -1 \/ ranks_ok cell (next_board f').
Proof.
  induction ops as [|op ops IH]; intros Hok f f' Hb Hf H; cbn [for_ops] in H.
  - now injection H as <-.
  - apply obind_Done in H as (f1 & H1 & H).
    apply (IH (fun o Ho => Hok o (list_elem_of_further _ _ _ Ho)) f1 f'); [| |exact H].
    + apply try_op_before in H1. congruence.
    + apply (try_op_next_board net b op f f1 Hb); [apply Hok; now left | exact Hf | exact H1].
Qed.

(** X13. On a sound agent, and a board whose legal afterstates hold ranks
    from 0 to 24, [take_action] stays within every vector: it returns, and
    the agent it returns is sound again. *)
Theorem take_action_sound (a : @weight_agent board) (b : board) :
  sound cell a ->
  (forall op, op ∈ [0; 1; 2; 3] -> legal slide b op -> ranks_ok cell (slide b op).1) ->
  exists act a',
    take_action new_board cell slide a b = Done (act, a', b) /\ sound cell a'.
Proof.
  intros (Hnet & Hbh & Hp) Hok.
  destruct (take_action_total new_board cell slide a b) as (act & a' & Hrun).
  { intros op Hop Hl. apply v_value_total; [exact Hnet | now apply Hok]. }
  exists act, a'. split; [exact Hrun|].
  unfold take_action in Hrun. apply obind_Done in Hrun as (f & Hf & [= _ <- _]).
  pose proof (for_ops_next_board (net a) b [0; 1; 2; 3] Hok
                {| before := b; best_move := -1; max_reward := -1;
                   max_val := F32.opp F32.max_float; next_board := new_board |}
                f eq_refl (or_introl eq_refl) Hf) as Hnb.
  destruct (Z.eqb_spec (best_move f) (-1)) as [E|E]; cbn [negb].
  - repeat split; assumption.
  - destruct Hnb as [Hnb|Hnb]; [contradiction|]. split; [exact Hnet|]. split.
    + cbn [board_history]. apply Forall_app. split; [exact Hbh|]. now apply Forall_singleton.
    + unfold paired in *. cbn [reward_history board_history]. rewrite !length_app, Hp.
      reflexivity.
Qed.

Lemma td_sweep_addressable (al : float) (rh : list Z) (bh : list board) (k : nat) :
  Forall (ranks_ok cell) bh -> length rh = length bh ->
  forall net, (k < length bh)%nat -> addressable net ->
    exists net', td_sweep cell al rh bh k net = Done net' /\ addressable net'.
Proof.
  intros Hbh Hlen. induction k as [|k IH]; intros net Hk Hnet; [eexists; split; [reflexivity|exact Hnet]|].
  cbn [td_sweep].
  destruct (lookup_lt_is_Some_2 bh k) as (bt & Hbt); [lia|].
  destruct (lookup_lt_is_Some_2 bh (S k)) as (bn & Hbn); [lia|].
  destruct (lookup_lt_is_Some_2 rh (S k)) as (r & Hr); [lia|].
  replace (Z.of_nat k + 1) with (Z.of_nat (S k)) by lia.
  rewrite !vec_at_of_nat, Hbt, Hr, Hbn. cbn [obind].
  pose proof (proj1 (Forall_lookup _ _) Hbh) as Hok.
  destruct (v_value_total cell net bn Hnet (Hok _ _ Hbn)) as (v & ->). cbn [obind].
  destruct (adjust_table_total cell al net bt (F32.add (F32.of_int r) v) Hnet (Hok _ _ Hbt))
    as (net1 & -> & Hnet1). cbn [obind].
  apply IH; [lia | exact Hnet1].
Qed.

(** X14. On a sound agent [close_episode] stays within every vector: it
    returns, and the agent it returns is sound again, so that the next
    episode can be played and closed as well. *)
Theorem close_episode_sound (a : @weight_agent board) :
  sound cell a -> exists a', close_episode cell a = Done a' /\ sound cell a'.
Proof.
  intros (Hnet & Hbh & Hp). unfold close_episode.
  case_bool_decide as Hn; [exists a; repeat split; assumption|].
  destruct (F32.eqb _ _); [exists a; repeat split; assumption|].
  destruct (lookup_lt_is_Some_2 (board_history a) (length (board_history a) - 1))
    as (last & Hlast); [lia|].
  replace (Z.of_nat (length (board_history a)) - 1)
    with (Z.of_nat (length (board_history a) - 1)) by lia.
  rewrite vec_at_of_nat, Hlast. cbn [obind].
  pose proof (proj1 (Forall_lookup _ _) Hbh) as Hok.
  destruct (adjust_table_total cell (alpha a) (net a) last (F32.of_int 0) Hnet (Hok _ _ Hlast))
    as (net1 & -> & Hnet1). cbn [obind].
  rewrite Nat2Z.id.
  destruct (td_sweep_addressable (alpha a) (reward_history a) (board_history a)
              (length (board_history a) - 1) Hbh Hp net1) as (net2 & -> & Hnet2);
    [lia | exact Hnet1 |].
  eexists. split; [reflexivity|]. repeat split; assumption.
Qed.

(** X15. Constructing an agent with the property [init], without [load]
    and with an [alpha] that converts (or none) returns an agent that holds
    the eight tables of [init_weights] and is sound, and [open_episode]
    keeps an agent sound. *)
Theorem new_weight_agent_sound (meta : gmap string string)
  (fs : gmap string (list Byte.byte)) (info : string) :
  meta !! "init" = Some info ->
  meta !! "load" = None ->
  alpha_converts stod narrow meta ->
  (exists a, new_weight_agent get_weight stod narrow meta fs = Done a /\
             net a = init_weights info [] /\ sound cell a /\
             sound cell (open_episode a)) /\
  (forall a : @weight_agent board, sound cell a -> sound cell (open_episode a)).
Proof.
  intros Hinit Hload Hal.
  assert (Hopen : forall a : @weight_agent board, sound cell a -> sound cell (open_episode a)).
  { intros a (Hnet & _ & _). split; [exact Hnet|]. split; [constructor | reflexivity]. }
  split; [|exact Hopen].
  assert (Hread : exists al,
             match meta !! "alpha" with
             | Some v => to_float stod narrow v
             | None => Done (F32.of_int 0)
             end = Done al).
  { unfold to_float. destruct (meta !! "alpha") as [v|] eqn:E; [|eauto].
    destruct (Hal v E) as (d & f & -> & ->). eauto. }
  destruct Hread as (al & Hread).
  unfold new_weight_agent. rewrite Hinit, Hload. cbn [obind]. rewrite Hread. cbn [obind].
  eexists. split; [reflexivity|]. split; [reflexivity|].
  assert (Hs : sound cell (Agent (init_weights info []) al [] ([] : list board))).
  { split; [apply init_weights_addressable|]. split; [constructor | reflexivity]. }
  split; [exact Hs | now apply Hopen].
Qed.

End Soundness.

Lemma grid_ranks_ok (b : Grid.board) :
  forallb (fun r => (0 <=? r) && (r <? 25)) b = true -> ranks_ok Grid.cell b.
Proof.
  intros H i _. unfold Grid.cell. destruct (b !! Z.to_nat i) as [r|] eqn:E; cbn; [|lia].
  rewrite forallb_forall in H. specialize (H r).
  rewrite <- list_elem_of_In in H. specialize (H (list_elem_of_lookup_2 _ _ _ E)).
  apply andb_true_iff in H as [H1 H2]. lia.
Qed.

Lemma take_action_sound_witness :
  exists act a',
    take_action Grid.new_board Grid.cell Grid.slide
      (Agent (init_weights "" []) Grid.half [] []) Grid.two_tiles =
      Done (act, a', Grid.two_tiles) /\
    sound Grid.cell a'.
Proof.
  apply (take_action_sound Grid.new_board Grid.cell Grid.slide
           (Agent (init_weights "" []) Grid.half [] []) Grid.two_tiles).
  - split; [apply init_weights_addressable|]. split; [constructor | reflexivity].
  - intros op Hop _.
    repeat (apply elem_of_cons in Hop as [->|Hop];
            [apply grid_ranks_ok; vm_compute; reflexivity|]).
    inversion Hop.
Defined.

Lemma close_episode_sound_witness :
  exists a',
    close_episode Grid.cell
      (Agent (init_weights "" []) Grid.half [4; 0] [Grid.merged_up; Grid.merged_up]) = Done a' /\
    sound Grid.cell a'.
Proof.
  apply (close_episode_sound Grid.cell
           (Agent (init_weights "" []) Grid.half [4; 0] [Grid.merged_up; Grid.merged_up])).
  split; [apply init_weights_addressable|]. split; [|reflexivity].
  apply Forall_cons_2; [apply grid_ranks_ok; reflexivity|].
  apply Forall_cons_2; [apply grid_ranks_ok; reflexivity | constructor].
Defined.

Lemma new_weight_agent_sound_witness :
  exists a,
    new_weight_agent Raw.get_weight Literal.stod Literal.narrow
      (<["alpha" := "0.5"]> {["init" := "init"]}) ∅ = Done a /\
    net a = init_weights "init" [] /\ sound Grid.cell a.
Proof.
  destruct (new_weight_agent_sound Grid.cell Raw.get_weight Literal.stod Literal.narrow
              (<["alpha" := "0.5"]> {["init" := "init"]}) ∅ "init")
    as [(a & Hrun & Hnet & Hs & _) _];
    [reflexivity | reflexivity | apply literal_half_converts |].
  exists a. auto.
Defined.

(** ** The random environment *)

Lemma below_sixteen (i : Z) :
  i ∈ [0; 1; 2; 3; 4; 5; 6; 7; 8; 9; 10; 11; 12; 13; 14; 15] <-> 0 <= i < 16.
Proof.
  split.
  - intros H. repeat (apply elem_of_cons in H as [->|H]; [lia|]). inversion H.
  - intros H.
    assert (E : i = 0 \/ i = 1 \/ i = 2 \/ i = 3 \/ i = 4 \/ i = 5 \/ i = 6 \/ i = 7 \/
                i = 8 \/ i = 9 \/ i = 10 \/ i = 11 \/ i = 12 \/ i = 13 \/ i = 14 \/ i = 15)
      by lia.
    repeat (destruct E as [->|E]; [repeat constructor|]). subst. repeat constructor.
Qed.

Section Environment.

Context {board : Type}.
Variable cell : board -> Z -> Z.
Context {engine : Type}.
Variable shuffle : engine -> list Z -> list Z * engine.
Variable popup : engine -> Z * engine.

(** [std::shuffle] reorders the elements it is given. *)
Hypothesis shuffle_permutes : forall g l, (shuffle g l).1 ≡ₚ l.

Lemma first_empty_Some (after : board) (sp : list Z) (pos : Z) :
  first_empty cell after sp = Some pos ->
  exists l1 l2, sp = l1 ++ pos :: l2 /\ cell after pos = 0 /\
                forall p, p ∈ l1 -> cell after p <> 0.
Proof.
  induction sp as [|p sp IH]; cbn [first_empty]; [discriminate|].
  destruct (Z.eqb_spec (cell after p) 0) as [E|E]; cbn [negb].
  - intros [= <-]. exists [], sp. split; [reflexivity|]. split; [exact E|].
    intros q Hq. inversion Hq.
  - intros H. destruct (IH H) as (l1 & l2 & -> & Hz & Hne).
    exists (p :: l1), l2. split; [reflexivity|]. split; [exact Hz|].
    intros q Hq. apply elem_of_cons in Hq as [->|Hq]; [exact E | now apply Hne].
Qed.

Lemma first_empty_None (after : board) (sp : list Z) :
  first_empty cell after sp = None <-> forall p, p ∈ sp -> cell after p <> 0.
Proof.
  induction sp as [|p sp IH]; cbn [first_empty].
  - split; [intros _ q Hq; inversion Hq | reflexivity].
  - destruct (Z.eqb_spec (cell after p) 0) as [E|E]; cbn [negb].
    + split; [discriminate|]. intros H. exfalso. apply (H p); [now left | exact E].
    + rewrite IH. split.
      * intros H q Hq. apply elem_of_cons in Hq as [->|Hq]; [exact E | now apply H].
      * intros H q Hq. apply H. now right.
Qed.

(** X16. When the environment places a tile, the position is a cell of its
    [space] that is empty on the board, the first empty one in the shuffled
    order, and the tile is 1 or 2; the shuffled [space] it keeps is a
    reordering of the one it had. *)
Theorem rndenv_places_on_empty_cell (e e' : rndenv) (after : board) (pos tile : Z) :
  rndenv_take_action cell shuffle popup e after = (action_place pos tile, e') ->
  pos ∈ space e /\ cell after pos = 0 /\ (tile = 1 \/ tile = 2) /\
  space e' ≡ₚ space e /\
  exists l1 l2, space e' = l1 ++ pos :: l2 /\ forall p, p ∈ l1 -> cell after p <> 0.
Proof.
  unfold rndenv_take_action. pose proof (shuffle_permutes (rnd_engine e) (space e)) as Hp.
  destruct (shuffle (rnd_engine e) (space e)) as [sp g]. cbn [fst] in Hp.
  destruct (first_empty cell after sp) as [p|] eqn:E; [|discriminate].
  destruct (popup g) as [draw g']. intros [= <- <- <-]. cbn [space].
  destruct (first_empty_Some _ _ _ E) as (l1 & l2 & -> & Hz & Hne).
  split; [rewrite <- Hp; apply elem_of_app; right; now left|].
  split; [exact Hz|]. split; [destruct (negb _); auto|]. split; [exact Hp|]. eauto.
Qed.

(** X17. An environment whose [space] is a reordering of 0, ..., 15, as it
    is after construction, returns the null action exactly when none of the
    sixteen cells is empty, never returns a slide, and keeps a [space] that
    is a reordering of 0, ..., 15. *)
Theorem rndenv_none_iff_full (e : rndenv) (after : board) :
  space e ≡ₚ [0; 1; 2; 3; 4; 5; 6; 7; 8; 9; 10; 11; 12; 13; 14; 15] ->
  ((rndenv_take_action cell shuffle popup e after).1 = action_none <->
   forall i, 0 <= i < 16 -> cell after i <> 0) /\
  (forall op, (rndenv_take_action cell shuffle popup e after).1 <> action_slide op) /\
  space (rndenv_take_action cell shuffle popup e after).2
    ≡ₚ [0; 1; 2; 3; 4; 5; 6; 7; 8; 9; 10; 11; 12; 13; 14; 15].
Proof.
  intros Hsp. unfold rndenv_take_action.
  pose proof (shuffle_permutes (rnd_engine e) (space e)) as Hp.
  destruct (shuffle (rnd_engine e) (space e)) as [sp g]. cbn [fst] in Hp.
  assert (Hall : (forall p, p ∈ sp -> cell after p <> 0) <->
                 (forall i, 0 <= i < 16 -> cell after i <> 0)).
  { split; intros H i Hi; apply H.
    - rewrite Hp, Hsp. now apply below_sixteen.
    - rewrite Hp, Hsp in Hi. now apply below_sixteen. }
  destruct (first_empty cell after sp) as [p|] eqn:E.
  - destruct (popup g) as [draw g']. cbn [fst snd space].
    split; [|split; [discriminate | now rewrite Hp]].
    split; [discriminate|]. intros H. pose proof (proj2 Hall H) as H'.
    apply first_empty_None in H'. congruence.
  - cbn [fst snd space]. split; [|split; [discriminate | now rewrite Hp]].
    split; [|reflexivity]. intros _. apply (proj1 Hall). now apply first_empty_None.
Qed.

End Environment.

Lemma dice_shuffle_permutes (g : Z) (l : list Z) : (Dice.shuffle g l).1 ≡ₚ l.
Proof. apply reverse_Permutation. Qed.

Lemma rndenv_places_on_empty_cell_witness :
  rndenv_take_action Grid.cell Dice.shuffle Dice.popup (rndenv_new 0) Grid.two_tiles =
    (action_place 14 1, Rndenv (reverse (space (rndenv_new 0))) 2) /\
  Grid.cell Grid.two_tiles 14 = 0.
Proof.
  split; [reflexivity|].
  destruct (rndenv_places_on_empty_cell Grid.cell Dice.shuffle Dice.popup dice_shuffle_permutes
              (rndenv_new 0) (Rndenv (reverse (space (rndenv_new 0))) 2) Grid.two_tiles 14 1)
    as (_ & H & _); [reflexivity | exact H].
Defined.

Lemma rndenv_none_iff_full_witness :
  (rndenv_take_action Grid.cell Dice.shuffle Dice.popup (rndenv_new 7) Grid.dead_board).1 =
    action_none.
Proof.
  destruct (rndenv_none_iff_full Grid.cell Dice.shuffle Dice.popup dice_shuffle_permutes
              (rndenv_new 7) Grid.dead_board) as ((_ & H) & _); [reflexivity|].
  apply H. intros i Hi. apply below_sixteen in Hi.
  repeat (apply elem_of_cons in Hi as [->|Hi]; [discriminate|]). inversion Hi.
Defined.

(** ** The heuristic player *)

Section Player.

Context {board : Type}.
Variable slide : board -> Z -> board * Z.

Lemma player_try_illegal (b : board) (op : Z) (c : choice) :
  (slide b op).2 = -1 -> player_try slide b op c = Done c.
Proof. unfold player_try. intros ->. reflexivity. Qed.

Lemma player_try_legal (b : board) (op : Z) (c : choice) :
  0 <= (slide b op).2 -> 7 * (slide b op).2 < 2 ^ 31 ->
  player_try slide b op c =
    Done (if weighted slide b op >? best_reward c
          then {| move := op; best_reward := weighted slide b op |} else c).
Proof.
  unfold player_try, weighted, factor, int_mul. intros H0 H7.
  destruct (Z.eqb_spec (slide b op).2 (-1)) as [E|_]; [lia|].
  assert (Hin : forall k, 3 <= k <= 7 ->
            (- 2 ^ 31 <=? (slide b op).2 * k) && ((slide b op).2 * k <? 2 ^ 31) = true).
  { intros k Hk. apply andb_true_iff. split; [apply Z.leb_le | apply Z.ltb_lt]; nia. }
  destruct (op =? 0); [|destruct (op =? 1)]; rewrite Hin by lia; cbn [obind];
    now destruct (_ >? _).
Qed.

Lemma player_try_step (b : board) (seen : list Z) (op : Z) (c : choice) :
  (slide b op).2 = -1 \/ (0 <= (slide b op).2 /\ 7 * (slide b op).2 < 2 ^ 31) ->
  chosen_so_far slide b seen c ->
  exists c', player_try slide b op c = Done c' /\ chosen_so_far slide b (seen ++ [op]) c'.
Proof.
  intros [Hill|[H0 H7]] Hc.
  - exists c. split; [now apply player_try_illegal|].
    assert (Hno : ~ legal slide b op) by (intros H; now apply H).
    destruct Hc as [(Hm & Hb & Hnone)|(l1 & l2 & -> & Hl & Hb & Hpos & H1 & H2)]; [left|right].
    + repeat split; try assumption. intros o Ho.
      apply elem_of_app in Ho as [Ho|Ho]; [now apply Hnone|].
      now apply list_elem_of_singleton in Ho as ->.
    + exists l1, (l2 ++ [op]). rewrite <- app_assoc. repeat split; try assumption.
      intros o Ho Hlo. apply elem_of_app in Ho as [Ho|Ho]; [now apply H2|].
      apply list_elem_of_singleton in Ho as ->. contradiction.
  - rewrite player_try_legal by assumption. eexists. split; [reflexivity|].
    assert (Hleg : legal slide b op) by (unfold legal; lia).
    assert (Hw : 0 <= weighted slide b op).
    { unfold weighted, factor. destruct (op =? 0); [|destruct (op =? 1)]; lia. }
    destruct (Z.gtb_spec (weighted slide b op) (best_reward c)) as [Hgt|Hle].
    + right. exists seen, []. cbn [move best_reward]. repeat split; try assumption.
      * intros o Ho Hlo.
        destruct Hc as [(_ & _ & Hnone)|(l1 & l2 & -> & _ & Hb & _ & H1 & H2)];
          [now destruct (Hnone o Ho)|].
        apply elem_of_app in Ho as [Ho|Ho]; [specialize (H1 o Ho Hlo); lia|].
        apply elem_of_cons in Ho as [->|Ho]; [lia | specialize (H2 o Ho Hlo); lia].
      * intros o Ho. inversion Ho.
    + destruct Hc as [(_ & Hb & _)|(l1 & l2 & -> & Hl & Hb & Hpos & H1 & H2)]; [lia|].
      right. exists l1, (l2 ++ [op]). rewrite <- app_assoc. repeat split; try assumption.
      intros o Ho Hlo. apply elem_of_app in Ho as [Ho|Ho]; [now apply H2|].
      apply list_elem_of_singleton in Ho as ->. exact Hle.
Qed.

Lemma player_loop_chooses (b : board) (ops : list Z) :
  (forall op, op ∈ ops ->
     (slide b op).2 = -1 \/ (0 <= (slide b op).2 /\ 7 * (slide b op).2 < 2 ^ 31)) ->
  forall seen c, chosen_so_far slide b seen c ->
    exists c', player_loop slide b ops c = Done c' /\ chosen_so_far slide b (seen ++ ops) c'.
Proof.
  induction ops as [|op ops IH]; intros Hfit seen c Hc; cbn [player_loop].
  - exists c. rewrite app_nil_r. auto.
  - destruct (player_try_step b seen op c) as (c1 & H1 & Hc1); [apply Hfit; now left | exact Hc|].
    rewrite H1. cbn [obind].
    destruct (IH (fun o Ho => Hfit o (list_elem_of_further _ _ _ Ho)) (seen ++ [op]) c1 Hc1)
      as (c' & H' & Hc').
    exists c'. rewrite <- app_assoc in Hc'. auto.
Qed.

(** X18. The player answers a board without a legal move with the null
    action [action()], where the learning agent answers with a slide. *)
Theorem player_no_legal_move (b : board) :
  (forall op, op ∈ [0; 3; 1; 2] -> ~ legal slide b op) ->
  player_take_action slide b = Done action_none.
Proof.
  intros Hno. unfold player_take_action.
  destruct (player_loop_chooses b [0; 3; 1; 2]) with (seen := @nil Z)
    (c := {| move := -1; best_reward := -1 |})
    as (c & -> & [(Hm & Hb & _)|(l1 & l2 & E & Hl & _)]).
  - intros op Hop. left. destruct (Z.eq_dec (slide b op).2 (-1)) as [E|E]; [exact E|].
    now destruct (Hno op Hop).
  - left. repeat split. intros o Ho. inversion Ho.
  - cbn [obind]. now rewrite Hb.
  - exfalso. apply (Hno (move c)); [|exact Hl]. cbn [app] in E. rewrite E.
    apply elem_of_app. right. now left.
Qed.

(** X19. On a board with a legal move whose rewards do not overflow, the
    player returns the slide of a legal direction whose reward, weighted by
    6 for direction 0, 7 for direction 1 and 3 otherwise, is the greatest:
    strictly greater than that of every legal direction tried before it in
    the order 0, 3, 1, 2, and at least that of every one tried after it. *)
Theorem player_greedy (b : board) :
  rewards_fit slide b ->
  (exists op, op ∈ [0; 3; 1; 2] /\ legal slide b op) ->
  exists m l1 l2,
    player_take_action slide b = Done (action_slide m) /\
    [0; 3; 1; 2] = l1 ++ m :: l2 /\ legal slide b m /\
    (forall o, o ∈ l1 -> legal slide b o -> weighted slide b o < weighted slide b m) /\
    (forall o, o ∈ l2 -> legal slide b o -> weighted slide b o <= weighted slide b m).
Proof.
  intros Hfit (op & Hop & Hleg). unfold player_take_action.
  destruct (player_loop_chooses b [0; 3; 1; 2] Hfit [] {| move := -1; best_reward := -1 |})
    as (c & -> & [(_ & _ & Hnone)|(l1 & l2 & E & Hl & Hb & Hpos & H1 & H2)]).
  - left. repeat split. intros o Ho. inversion Ho.
  - now destruct (Hnone op Hop).
  - cbn [obind]. exists (move c), l1, l2.
    destruct (Z.eqb_spec (best_reward c) (-1)) as [Hm|_]; [lia|]. cbn [negb].
    rewrite <- Hb. auto.
Qed.

End Player.

Lemma two_tiles_rewards_fit : rewards_fit Grid.slide Grid.two_tiles.
Proof.
  intros op Hop.
  repeat (apply elem_of_cons in Hop as [->|Hop]; [vm_compute; intuition discriminate|]).
  inversion Hop.
Qed.

Lemma player_no_legal_move_witness :
  player_take_action Grid.slide Grid.dead_board = Done action_none.
Proof.
  apply (player_no_legal_move Grid.slide Grid.dead_board).
  intros op Hop Hl. repeat (apply elem_of_cons in Hop as [->|Hop]; [now apply Hl|]).
  inversion Hop.
Defined.

Lemma player_greedy_witness :
  exists m, player_take_action Grid.slide Grid.two_tiles = Done (action_slide m) /\
            legal Grid.slide Grid.two_tiles m.
Proof.
  destruct (player_greedy Grid.slide Grid.two_tiles two_tiles_rewards_fit)
    as (m & l1 & l2 & Hrun & _ & Hl & _).
  - exists 0. split; [now left | discriminate].
  - exists m. auto.
Defined.

(** On [two_tiles] the player slides up: weighted rewards 24 for up, 12 for
    down, 0 for left. *)
Example player_on_two_tiles :
  player_take_action Grid.slide Grid.two_tiles = Done (action_slide 0) /\
  weighted Grid.slide Grid.two_tiles <$> [0; 3; 2] = [24; 0; 12].
Proof. split; reflexivity. Qed.
